(** * DSA-Project indexing pipeline: lexicon, forward index, backward index

    A shallow embedding of [src/lexicon_builder.py], [src/foward_indexing.py]
    and [src/backward_indexing.py], and the properties of the pipeline that
    the design document states about them.

    Conventions of the embedding.
    - Text is [string] over [ascii]; the words the pipeline handles are the
      matches of the pattern [[a-zA-Z]{2,30}], so [lower] and [isalpha] are
      the ASCII ones.
    - A Python [dict] is an association list in insertion order with one
      entry per key ([json.dump] writes the entries in that order).
    - JSON integers are [Z].
    - Files written by a stage are returned as a list of (name, body) pairs;
      the elapsed-time field of the statistics is left out. *)

From Stdlib Require Import List String Ascii ZArith NArith PeanoNat Bool Lia.
From Stdlib Require Import Permutation Sorted DecimalString Decimal DecimalZ.
From Stdlib Require OrderedTypeEx.
Import ListNotations.
Open Scope string_scope.
Open Scope list_scope.

(* ================================================================== *)
(** * Python primitives used by the three builders *)
(* ================================================================== *)

Module Py.

(** ** Characters and strings *)

Definition code (c : ascii) : N := N_of_ascii c.

Definition in_range (lo hi : N) (c : ascii) : bool :=
  (N.leb lo (code c) && N.leb (code c) hi)%bool.

Definition is_upper (c : ascii) : bool := in_range 65 90 c.
Definition is_lower (c : ascii) : bool := in_range 97 122 c.
Definition is_letter (c : ascii) : bool := (is_upper c || is_lower c)%bool.
Definition is_digit (c : ascii) : bool := in_range 48 57 c.

(** A character of ASCII text: a code point below 128. *)
Definition is_ascii (c : ascii) : bool := N.ltb (code c) 128.

(** [\w] of the [re] module, on ASCII text. *)
Definition is_word_char (c : ascii) : bool :=
  (is_letter c || is_digit c || Ascii.eqb c "_")%bool.

Definition lower_char (c : ascii) : ascii :=
  if is_upper c then ascii_of_N (code c + 32) else c.

(** [s.lower()] on ASCII text: the 26 capital letters are lowered, every
    other character is kept.  ([str.lower] also changes characters outside
    ASCII; such text is not covered.) *)
Fixpoint lower (s : string) : string :=
  match s with
  | EmptyString => EmptyString
  | String c r => String (lower_char c) (lower r)
  end.

Fixpoint all_chars (p : ascii -> bool) (s : string) : bool :=
  match s with
  | EmptyString => true
  | String c r => (p c && all_chars p r)%bool
  end.

Fixpoint any_char (p : ascii -> bool) (s : string) : bool :=
  match s with
  | EmptyString => false
  | String c r => (p c || any_char p r)%bool
  end.

(** [s.isalpha()]: false on the empty string. *)
Definition isalpha (s : string) : bool :=
  match s with
  | EmptyString => false
  | _ => all_chars is_letter s
  end.

(** [s[:n]] *)
Definition prefix_slice (n : nat) (s : string) : string := substring 0 n s.

(** [str(n)] for an integer. *)
Definition str (z : Z) : string := NilZero.string_of_int (Z.to_int z).

Definition dquote : ascii := "034"%char.
Definition newline : ascii := "010"%char.
Definition nl : string := String newline EmptyString.
Definition quoted (s : string) : string :=
  String dquote (s ++ String dquote EmptyString)%string.

(** ** The word pattern [\b[a-zA-Z]{2,30}\b]

    [findall] returns the maximal runs of word characters that consist of
    letters only and are 2 to 30 characters long: a run that holds a digit or
    an underscore, or that is longer than 30 letters, has no word boundary
    where a match would have to start or end.  This is the pattern on ASCII
    text; [\b] and [\w] also know letters outside ASCII, which are not
    covered. *)

Definition flush (cur : string) : list string :=
  match cur with
  | EmptyString => []
  | _ => [cur]
  end.

Fixpoint word_runs (s cur : string) : list string :=
  match s with
  | EmptyString => flush cur
  | String c r =>
      if is_word_char c
      then word_runs r (cur ++ String c EmptyString)%string
      else flush cur ++ word_runs r EmptyString
  end.

Definition matches_pattern (w : string) : bool :=
  (all_chars is_letter w
   && Nat.leb 2 (String.length w) && Nat.leb (String.length w) 30)%bool.

Definition findall_words (content : string) : list string :=
  filter matches_pattern (word_runs content EmptyString).

(** [enumerate(l, start)] *)
Fixpoint enumerate {A : Type} (start : Z) (l : list A) : list (Z * A) :=
  match l with
  | [] => []
  | x :: r => (start, x) :: enumerate (start + 1)%Z r
  end.

(** ** Dictionaries in insertion order *)

Section Dict.
Context {K V : Type}.
Variable eqb : K -> K -> bool.

Definition dict := list (K * V).

(** [d.get(k)] *)
Fixpoint get (k : K) (d : dict) : option V :=
  match d with
  | [] => None
  | (k', v) :: r => if eqb k' k then Some v else get k r
  end.

(** [k in d] *)
Definition contains (k : K) (d : dict) : bool :=
  match get k d with
  | Some _ => true
  | None => false
  end.

(** [d[k] = v]: a present key keeps its place, a new key goes last. *)
Fixpoint assign (k : K) (v : V) (d : dict) : dict :=
  match d with
  | [] => [(k, v)]
  | (k', v') :: r =>
      if eqb k' k then (k', v) :: r else (k', v') :: assign k v r
  end.

(** [d[k]] on a [defaultdict] followed by an in-place change [f] of the
    value: a missing key is first entered, last, with the default. *)
Fixpoint update (k : K) (f : V -> V) (dflt : V) (d : dict) : dict :=
  match d with
  | [] => [(k, f dflt)]
  | (k', v) :: r =>
      if eqb k' k then (k', f v) :: r else (k', v) :: update k f dflt r
  end.

Definition keys (d : dict) : list K := map fst d.

(** [{k: v for k, v in pairs}] *)
Definition of_pairs (pairs : list (K * V)) : dict :=
  fold_left (fun d kv => assign (fst kv) (snd kv) d) pairs [].

End Dict.

(** A Python [set] of strings as a duplicate-free list; the iteration order
    of a set is unspecified, and the code only ever sorts it. *)
Definition set_contains (w : string) (s : list string) : bool :=
  existsb (String.eqb w) s.

Definition set_add (w : string) (s : list string) : list string :=
  if set_contains w s then s else s ++ [w].

(** [s.update(t)] *)
Definition set_update (s t : list string) : list string :=
  fold_left (fun acc w => set_add w acc) t s.

(** [sorted(words)]: strings are ordered by code point, lexicographically.
    The code sorts a set, so no two elements compare equal and every sorting
    algorithm returns the same list; insertion is the simplest to state. *)
Fixpoint insert_sorted (w : string) (l : list string) : list string :=
  match l with
  | [] => [w]
  | x :: r => if String.leb w x then w :: l else x :: insert_sorted w r
  end.

Definition sorted (l : list string) : list string :=
  fold_right insert_sorted [] l.

(** ** Batches: [l[i:i + batch_size] for i in range(0, len(l), batch_size)] *)

Fixpoint batches_fuel {A : Type} (fuel : nat) (size : nat) (l : list A)
  : list (list A) :=
  match fuel, l with
  | _, [] => []
  | O, _ => []
  | S fuel', _ => firstn size l :: batches_fuel fuel' size (skipn size l)
  end.

(** The batch size is a positive number (the builders default to 100 and
    200); one batch per step of the range, so at most [len(l)] batches. *)
Definition batches {A : Type} (size : positive) (l : list A) : list (list A) :=
  batches_fuel (List.length l) (Pos.to_nat size) l.

(** A text file of the cleaned-data directory: [stem] is the file name
    without its [.txt] suffix, [text] is what reading it returns, [None]
    when [open] or [read] raises. *)
Record txt_file := { stem : string; text : option string }.

Definition name (f : txt_file) : string := (stem f ++ ".txt")%string.

(** [_get_txt_files], the same in both builders that read the cleaned
    text: the [*.txt] entries of the directory but the two excluded names
    (the second can never end in [.txt]). *)
Definition exclude : list string := ["vocabulary.txt"; "processing_progress.json"].

Definition _get_txt_files (dir : list txt_file) : list txt_file :=
  filter (fun f => negb (set_contains (name f) exclude)) dir.

End Py.

(* ================================================================== *)
(** * lexicon_builder.py *)
(* ================================================================== *)

Module Lexicon.
Import Py.

Definition lexicon := list (string * Z).

Record stats := { total_files : Z; unique_words : Z }.

(** What [build] writes into the output directory. *)
Inductive body :=
| LexiconJson (lex : lexicon)
| StatsJson (st : stats).

Definition vowels : list ascii := ["a"; "e"; "i"; "o"; "u"]%char.
Definition is_vowel (c : ascii) : bool := existsb (Ascii.eqb c) vowels.
Definition is_consonant (c : ascii) : bool := negb (is_vowel c).

(** One of the two streak loops of [_is_gibberish]: [streak] is the running
    streak of characters satisfying [p], [mx] the longest seen. *)
Fixpoint streak_max (p : ascii -> bool) (word : string) (streak mx : nat) : nat :=
  match word with
  | EmptyString => mx
  | String c r =>
      if p c
      then streak_max p r (S streak) (Nat.max mx (S streak))
      else streak_max p r 0 mx
  end.

(** [word[i] == word[j]], both indices inside the word. *)
Definition same_at (word : string) (i j : nat) : bool :=
  match String.get i word, String.get j word with
  | Some a, Some b => Ascii.eqb a b
  | _, _ => false
  end.

Definition _is_gibberish (word : string) : bool :=
  if Nat.ltb 5 (streak_max is_consonant word 0 0) then true
  else if Nat.ltb 4 (streak_max is_vowel word 0 0) then true
  else if existsb (fun i => same_at word i (i + 1) && same_at word (i + 1) (i + 2))
            (seq 0 (String.length word - 2)) then true
  else if Nat.ltb 3 (String.length word) && negb (any_char is_vowel word) then true
  else false.

Section Builder.

(** [self.english_words]: the lowercased nltk word list, or the empty set
    when nltk is missing. *)
Variable english_words : list string.
Variable batch_size : positive.

Definition _is_valid_word (word : string) : bool :=
  let word := lower word in
  if negb (Nat.leb 2 (String.length word) && Nat.leb (String.length word) 30)
     || negb (isalpha word) then false
  else if negb (Nat.eqb (List.length english_words) 0)
          && set_contains word english_words then true
  else if _is_gibberish word then false
  else true.

(** The set of valid words of one file; a file that cannot be read yields
    the empty set. *)
Definition _process_file (f : txt_file) : list string :=
  match text f with
  | None => []
  | Some content =>
      fold_left
        (fun valid_words word =>
           let word_lower := lower word in
           if _is_valid_word word_lower then set_add word_lower valid_words
           else valid_words)
        (findall_words content) []
  end.

(** The batch loop of [build]: [pool.map] returns the per-file sets in the
    order of the batch, and each is merged into [all_words]. *)
Definition collect (txt_files : list txt_file) : list string :=
  fold_left
    (fun all_words batch =>
       fold_left set_update (map _process_file batch) all_words)
    (batches batch_size txt_files) [].

Definition make_lexicon (all_words : list string) : lexicon :=
  of_pairs String.eqb
    (map (fun iw => (snd iw, fst iw)) (enumerate 1 (sorted all_words))).

(** [build]: returns the statistics of the builder and the files written. *)
Definition build (self_stats : stats) (dir : list txt_file)
  : stats * list (string * body) :=
  let txt_files := _get_txt_files dir in
  match txt_files with
  | [] => (self_stats, [])
  | _ =>
      let lex := make_lexicon (collect txt_files) in
      let st := {| total_files := Z.of_nat (List.length txt_files);
                   unique_words := Z.of_nat (List.length lex) |} in
      (st, [("lexicon.json", LexiconJson lex); ("lexicon_stats.json", StatsJson st)])
  end.

(** How a call ends for its caller: it returns, or it raises.  [build] has
    no [raise] and calls no [sys.exit]: its first path prints a warning and
    returns, its second falls off the end of the function, and either way the
    caller gets [None]. *)
Inductive outcome :=
| Returns_None
| Raises.

(** A call of [build] as its caller sees it, the two output files being
    writable. *)
Record call := {
  ends : outcome;
  (** the line with the warning sign was printed *)
  warned : bool;
  stats_after : stats;
  writes : list (string * body)
}.

Definition build_call (self_stats : stats) (dir : list txt_file) : call :=
  match _get_txt_files dir with
  | [] =>
      {| ends := Returns_None; warned := true;
         stats_after := self_stats; writes := [] |}
  | _ =>
      {| ends := Returns_None; warned := false;
         stats_after := fst (build self_stats dir);
         writes := snd (build self_stats dir) |}
  end.

End Builder.

(** ** The acceptance rule in the words of the design document *)




(** A normalized candidate: lowercase, alphabetic, 2 to 30 characters. *)
Definition normalized (w : string) : Prop :=
  all_chars is_lower w = true /\ 2 <= String.length w <= 30.



(** The words some readable file of the corpus contributes: the lowercased
    matches of the word pattern that [_is_valid_word] accepts. *)
Definition accepted (english_words : list string) (txt_files : list txt_file)
  (w : string) : Prop :=
  exists f content token,
    In f txt_files /\ text f = Some content
    /\ In token (findall_words content)
    /\ w = lower token /\ _is_valid_word english_words w = true.

(** Strict lexicographic order on words, by code point. *)
Definition word_lt (a b : string) : Prop := String.compare a b = Lt.

End Lexicon.

(* ================================================================== *)
(** * foward_indexing.py *)
(* ================================================================== *)

Module Forward.
Import Py.

Record stats := {
  files_processed : Z;
  total_word_positions : Z;
  words_not_in_lexicon : Z
}.

(** [self.stats] as [__init__] leaves it. *)
Definition initial_stats : stats :=
  {| files_processed := 0; total_word_positions := 0; words_not_in_lexicon := 0 |}.

Record builder := {
  lexicon : list (string * Z);
  batch_size : positive;
  self_stats : stats
}.

(** [ForwardIndexBuilder(...)] with the lexicon file already loaded. *)
Definition init (lex : list (string * Z)) (size : positive) : builder :=
  {| lexicon := lex; batch_size := size; self_stats := initial_stats |}.

(** The body of the loop over [enumerate(words)]: [acc] holds the pair list
    [forward_index] and the local counter [words_skipped].  The test
    [word_lower in self.lexicon] and the read [self.lexicon[word_lower]] are
    the two cases of one lookup. *)
Definition index_step (lex : list (string * Z)) (acc : list (Z * Z) * Z)
  (pw : Z * string) : list (Z * Z) * Z :=
  let '(forward_index, words_skipped) := acc in
  let '(position, word) := pw in
  let word_lower := lower word in
  match get String.eqb word_lower lex with
  | Some word_id => (forward_index ++ [(word_id, position)], words_skipped)
  | None => (forward_index, (words_skipped + 1)%Z)
  end.

Definition index_words (lex : list (string * Z)) (words : list string)
  : list (Z * Z) * Z :=
  fold_left (index_step lex) (enumerate 0 words) ([], 0%Z).

(** The text written for one document: one [[word_id, position]] per line,
    all but the last followed by a comma. *)
Definition entry_line (len : Z) (ie : Z * (Z * Z)) : string :=
  let '(i, (word_id, pos)) := ie in
  ("    [" ++ str word_id ++ ", " ++ str pos ++ "]"
   ++ (if (i <? len - 1)%Z then "," else EmptyString) ++ nl)%string.

Definition render (doc_name : string) (forward_index : list (Z * Z)) : string :=
  ("{" ++ nl
   ++ "  " ++ quoted doc_name ++ ": [" ++ nl
   ++ String.concat EmptyString
        (map (entry_line (Z.of_nat (List.length forward_index)))
             (enumerate 0 forward_index))
   ++ "  ]" ++ nl
   ++ "}")%string.

(** [_process_single_file]: the builder afterwards, the files written, and
    the returned pair.  [words_skipped] is a local of the function and is
    dropped when it returns; [self.stats] is not touched. *)
Definition _process_single_file (self : builder) (txt_file : txt_file)
  : builder * list (string * string) * (string * bool) :=
  match text txt_file with
  | None => (self, [], (name txt_file, false))
  | Some content =>
      let words := findall_words content in
      let '(forward_index, words_skipped) := index_words (lexicon self) words in
      let doc_name := stem txt_file in
      (self, [((doc_name ++ ".json")%string, render doc_name forward_index)],
       (doc_name, true))
  end.

Record run_result := {
  self_after : builder;
  written : list (string * string);
  successful : Z;
  failed : Z;
  (** the closing summary divides by [successful] *)
  summary_raises : bool
}.

Definition process_batch (acc : run_result) (batch : list Py.txt_file) : run_result :=
  fold_left
    (fun acc f =>
       let '(self', w, (_, success)) := _process_single_file (self_after acc) f in
       {| self_after := self';
          written := written acc ++ w;
          successful := if success then (successful acc + 1)%Z else successful acc;
          failed := if success then failed acc else (failed acc + 1)%Z;
          summary_raises := false |})
    batch acc.

(** [build_indexes]; [None] when there is no text file and the function
    returns at once. *)
Definition build_indexes (self : builder) (dir : list Py.txt_file)
  : option run_result :=
  let txt_files := _get_txt_files dir in
  match txt_files with
  | [] => None
  | _ =>
      let r := fold_left process_batch (batches (batch_size self) txt_files)
                 {| self_after := self; written := []; successful := 0;
                    failed := 0; summary_raises := false |} in
      let st := {| files_processed := successful r;
                   total_word_positions := total_word_positions (self_stats (self_after r));
                   words_not_in_lexicon := words_not_in_lexicon (self_stats (self_after r)) |} in
      Some {| self_after := {| lexicon := lexicon (self_after r);
                               batch_size := batch_size (self_after r);
                               self_stats := st |};
              written := written r;
              successful := successful r;
              failed := failed r;
              summary_raises := (successful r =? 0)%Z |}
  end.

(** ** The documented shape, read back

    A forward index file is a JSON object with one key, the document name,
    whose value is the array of pairs.  [read_empty_record] reads a text as
    such an object with an empty array, by the grammar of JSON, and gives
    the document name; [None] when the text is not of that shape.  Escapes
    of code points above 255 are not covered. *)

Definition json_space (c : ascii) : bool :=
  Ascii.eqb c " " || Ascii.eqb c newline || Ascii.eqb c "013" || Ascii.eqb c "009".

Fixpoint skip_space (s : string) : string :=
  match s with
  | String c r => if json_space c then skip_space r else s
  | EmptyString => s
  end.

(** The next character that is not white space has to be [c]. *)
Definition expect (c : ascii) (s : string) : option string :=
  match skip_space s with
  | String c' r => if Ascii.eqb c' c then Some r else None
  | EmptyString => None
  end.

Definition hex_value (c : ascii) : option N :=
  if in_range 48 57 c then Some (code c - 48)%N
  else if in_range 97 102 c then Some (code c - 87)%N
  else if in_range 65 70 c then Some (code c - 55)%N
  else None.

(** The character that a backslash and [e] stand for. *)
Definition unescape (e : ascii) : option ascii :=
  if Ascii.eqb e dquote then Some dquote
  else if Ascii.eqb e "092" then Some "092"%char
  else if Ascii.eqb e "/" then Some "/"%char
  else if Ascii.eqb e "b" then Some "008"%char
  else if Ascii.eqb e "f" then Some "012"%char
  else if Ascii.eqb e "n" then Some newline
  else if Ascii.eqb e "r" then Some "013"%char
  else if Ascii.eqb e "t" then Some "009"%char
  else None.

Definition cons_key (c : ascii) (r : option (string * string))
  : option (string * string) :=
  match r with
  | Some (key, rest) => Some (String c key, rest)
  | None => None
  end.

(** A JSON string from behind its opening quote: the string it denotes and
    the text behind its closing quote.  A quote ends the string, a backslash
    starts an escape, a control character is not allowed. *)
Fixpoint read_string_body (s : string) : option (string * string) :=
  match s with
  | EmptyString => None
  | String c r =>
      if Ascii.eqb c dquote then Some (EmptyString, r)
      else if Ascii.eqb c "092" then
        match r with
        | EmptyString => None
        | String e r' =>
            match unescape e with
            | Some c' => cons_key c' (read_string_body r')
            | None =>
                if Ascii.eqb e "u" then
                  match r' with
                  | String h1 (String h2 (String h3 (String h4 r''))) =>
                      match hex_value h1, hex_value h2, hex_value h3, hex_value h4 with
                      | Some 0%N, Some 0%N, Some a, Some b =>
                          cons_key (ascii_of_N (16 * a + b)) (read_string_body r'')
                      | _, _, _, _ => None
                      end
                  | _ => None
                  end
                else None
            end
        end
      else if N.ltb (code c) 32 then None
      else cons_key c (read_string_body r)
  end.

Definition bind {A B : Type} (x : option A) (k : A -> option B) : option B :=
  match x with
  | Some a => k a
  | None => None
  end.

Definition read_empty_record (text : string) : option string :=
  bind (expect "{" text) (fun s1 =>
  bind (expect dquote s1) (fun s2 =>
  bind (read_string_body s2) (fun ks =>
  bind (expect ":" (snd ks)) (fun s3 =>
  bind (expect "[" s3) (fun s4 =>
  bind (expect "]" s4) (fun s5 =>
  bind (expect "}" s5) (fun s6 =>
  match skip_space s6 with
  | EmptyString => Some (fst ks)
  | _ => None
  end))))))).


(** ** The run, file by file *)

(** The files [_process_single_file] can read. *)
Definition readable_txt (f : txt_file) : bool :=
  match text f with
  | Some _ => true
  | None => false
  end.

(** What [_process_single_file] writes for one file: nothing for a file it
    cannot read, else the record of the document. *)
Definition record_file (lex : list (string * Z)) (f : txt_file)
  : list (string * string) :=
  match text f with
  | None => []
  | Some content =>
      [((stem f ++ ".json")%string,
        render (stem f) (fst (index_words lex (findall_words content))))]
  end.

End Forward.

(* ================================================================== *)
(** * backward_indexing.py *)
(* ================================================================== *)

Module Backward.
Import Py.

(** An element of the array of a forward-index file: a two-element array
    [[word_id, position]] of integers, or anything that the loop header
    [for word_id, position in forward_index] cannot unpack into two values
    (a number, [null], an array or a string of another length than two).
    An element that unpacks into two values that are not integers (a string
    of two characters, say) is not covered. *)
Inductive item :=
| Pair (word_id position : Z)
| BadItem.

(** What [open] and [json.load] give for a file of the forward-index
    directory: an exception, or a JSON object whose values are arrays. *)
Inductive fwd_file :=
| Unreadable
| Loaded (data : list (string * list item)).

(** doc_name -> [positions] *)
Definition postings := list (string * list Z).
(** word_id -> {doc_name -> [positions]} *)
Definition inverted := list (Z * postings).
(** str(word_id) -> {doc_name -> [positions]}: the object dumped into one
    barrel file. *)
Definition barrel := list (string * postings).

Record stats := {
  files_processed : Z;
  total_words_indexed : Z;
  barrels_created : Z
}.

Record builder := {
  lexicon : list (string * Z);
  id_to_word : list (Z * string);
  inverted_index : inverted;
  batch_size : positive;
  self_stats : stats
}.

(** [BackwardIndexBuilder(...)] with the lexicon file already loaded. *)
Definition init (lex : list (string * Z)) (size : positive) : builder :=
  {| lexicon := lex;
     id_to_word := of_pairs Z.eqb (map (fun e => (snd e, fst e)) lex);
     inverted_index := [];
     batch_size := size;
     self_stats := {| files_processed := 0; total_words_indexed := 0;
                      barrels_created := 0 |} |}.

Definition with_index (self : builder) (inv : inverted) : builder :=
  {| lexicon := lexicon self; id_to_word := id_to_word self;
     inverted_index := inv; batch_size := batch_size self;
     self_stats := self_stats self |}.

Definition _get_barrel_name (word : string) : string :=
  lower (prefix_slice 3 (word ++ "aaa")%string).

Definition stats_name : string := "indexing_stats.json".

(** [_get_forward_index_files]: the [*.json] entries of the directory,
    each with its name, but the statistics file. *)
Definition _get_forward_index_files (dir : list (string * fwd_file))
  : list (string * fwd_file) :=
  filter (fun f => negb (String.eqb (fst f) stats_name)) dir.

(** [self.inverted_index[word_id][doc_name].append(position)] *)
Definition add_posting (inv : inverted) (doc_name : string) (word_id position : Z)
  : inverted :=
  update Z.eqb word_id
    (update String.eqb doc_name (fun ps => ps ++ [position]) [])
    [] inv.

(** The loop of [_process_forward_index]: the index when the loop stops and
    whether it ran to its end; what was appended before an element that
    cannot be unpacked stays appended. *)
Fixpoint flip (doc_name : string) (forward_index : list item) (inv : inverted)
  : inverted * bool :=
  match forward_index with
  | [] => (inv, true)
  | Pair word_id position :: r =>
      flip doc_name r (add_posting inv doc_name word_id position)
  | BadItem :: _ => (inv, false)
  end.

Definition _process_forward_index (self : builder) (forward_file : fwd_file)
  : builder * bool :=
  match forward_file with
  | Unreadable => (self, false)
  | Loaded [] => (self, false)
  | Loaded ((doc_name, forward_index) :: _) =>
      let '(inv, ok) := flip doc_name forward_index (inverted_index self) in
      (with_index self inv, ok)
  end.

(** Body of the first loop of [_save_barrels]: a word id without a word is
    passed over, the postings of any other go under the stringified id into
    the barrel of the word. *)
Definition place (id_to_word : list (Z * string)) (barrels : list (string * barrel))
  (entry : Z * postings) : list (string * barrel) :=
  let '(word_id, doc_positions) := entry in
  match get Z.eqb word_id id_to_word with
  | None => barrels
  | Some word =>
      update String.eqb (_get_barrel_name word)
        (assign String.eqb (str word_id) doc_positions) [] barrels
  end.

Definition distribute (id_to_word : list (Z * string)) (inv : inverted)
  : list (string * barrel) :=
  fold_left (place id_to_word) inv [].

Definition barrel_file (barrel_name : string) : string :=
  ("inverted_" ++ barrel_name ++ ".json")%string.

(** Body of the second loop of [_save_barrels]: [acc] holds the objects
    handed to [json.dump] so far, by file name, and [saved_count]. *)
Definition save_step (acc : list (string * barrel) * Z) (b : string * barrel)
  : list (string * barrel) * Z :=
  let '(files, saved_count) := acc in
  let '(barrel_name, barrel_data) := b in
  match barrel_data with
  | [] => acc
  | _ => (files ++ [(barrel_file barrel_name, barrel_data)], (saved_count + 1)%Z)
  end.

Definition save (barrels : list (string * barrel)) : list (string * barrel) * Z :=
  fold_left save_step barrels ([], 0%Z).

Definition _save_barrels (self : builder) : list (string * barrel) * Z :=
  save (distribute (id_to_word self) (inverted_index self)).

Definition process_batch (acc : builder * Z) (batch : list (string * fwd_file))
  : builder * Z :=
  fold_left
    (fun acc f =>
       let '(self, successful) := acc in
       let '(self', ok) := _process_forward_index self (snd f) in
       (self', if ok then (successful + 1)%Z else successful))
    batch acc.

(** [build_inverted_index]: the builder afterwards and the barrel objects
    written.  Without forward files the function returns at once. *)
Definition build_inverted_index (self : builder) (dir : list (string * fwd_file))
  : builder * list (string * barrel) :=
  let forward_files := _get_forward_index_files dir in
  match forward_files with
  | [] => (self, [])
  | _ =>
      let '(self1, successful) :=
        fold_left process_batch (batches (batch_size self) forward_files)
          (self, 0%Z) in
      let '(files, saved_count) := _save_barrels self1 in
      ({| lexicon := lexicon self1; id_to_word := id_to_word self1;
          inverted_index := [];
          batch_size := batch_size self1;
          self_stats :=
            {| files_processed := successful;
               total_words_indexed := Z.of_nat (List.length (inverted_index self1));
               barrels_created := saved_count |} |},
       files)
  end.

(** ** [json.dump(barrel_data, f, indent=2)] *)











(** ** The inversion in the words of the design document *)

(** A forward index record: a document and its (word_id, position) pairs. *)
Definition record := (string * list (Z * Z))%type.

(** The forward-index file of a record; [None] stands for a file that
    cannot be read or parsed. *)
Definition file_of (r : option record) : fwd_file :=
  match r with
  | None => Unreadable
  | Some (doc, pairs) => Loaded [(doc, map (fun wp => Pair (fst wp) (snd wp)) pairs)]
  end.

Definition records_of (rs : list (option record)) : list record :=
  flat_map (fun r => match r with Some x => [x] | None => [] end) rs.

(** The positions of the pairs of one record that carry word id [w], in the
    order of the record. *)
Definition positions_of (w : Z) (pairs : list (Z * Z)) : list Z :=
  map snd (filter (fun wp => Z.eqb (fst wp) w) pairs).

(** Scanning every record for pairs with word id [w]: one
    (document, positions) pair per record that mentions [w]. *)
Definition scan (w : Z) (records : list record) : postings :=
  flat_map
    (fun r => match positions_of w (snd r) with
              | [] => []
              | ps => [(fst r, ps)]
              end)
    records.

(** A word id resolves when some lexicon entry carries it. *)
Definition resolves (lex : list (string * Z)) (w : Z) : bool :=
  existsb (fun e => Z.eqb (snd e) w) lex.

Definition resolved_pairs (lex : list (string * Z)) (records : list record) : nat :=
  list_sum (map (fun r => List.length (filter (fun wp => resolves lex (fst wp)) (snd r)))
                records).

Definition postings_size (docs : postings) : nat :=
  list_sum (map (fun dp => List.length (snd dp)) docs).

Definition barrel_size (b : barrel) : nat :=
  list_sum (map (fun kd => postings_size (snd kd)) b).

(** Position entries summed over all barrel files. *)
Definition position_entries (files : list (string * barrel)) : nat :=
  list_sum (map (fun f => barrel_size (snd f)) files).

(** How a reader finds the postings of a word id: the word of the id names
    the barrel file, the stringified id is the key inside it. *)
Definition recover (lex : list (string * Z)) (files : list (string * barrel)) (w : Z)
  : option postings :=
  match get Z.eqb w (of_pairs Z.eqb (map (fun e => (snd e, fst e)) lex)) with
  | None => None
  | Some word =>
      match get String.eqb (barrel_file (_get_barrel_name word)) files with
      | None => None
      | Some b => get String.eqb (str w) b
      end
  end.

(** The positions stored for one (file, key, document) triple. *)
Definition lookup3 (files : list (string * barrel)) (file key doc : string)
  : option (list Z) :=
  match get String.eqb file files with
  | None => None
  | Some b =>
      match get String.eqb key b with
      | None => None
      | Some docs => get String.eqb doc docs
      end
  end.

(** The barrel key in the words of the design document: the first three
    characters of the lowercased word, padded on the right with [a]. *)
Fixpoint pad_a (n : nat) (s : string) : string :=
  match n with
  | O => s
  | S n' =>
      match s with
      | EmptyString => String "a" (pad_a n' EmptyString)
      | String c r => String c (pad_a n' r)
      end
  end.

Definition barrel_key (word : string) : string :=
  pad_a 3 (prefix_slice 3 (lower word)).

(** ** The run, file by file *)

(** The effect of one forward-index file on the index, and whether
    [_process_forward_index] returns [True] for it. *)
Definition absorb (inv : inverted) (forward_file : fwd_file) : inverted * bool :=
  match forward_file with
  | Unreadable => (inv, false)
  | Loaded [] => (inv, false)
  | Loaded ((doc_name, forward_index) :: _) => flip doc_name forward_index inv
  end.

Definition index_of (files : list (string * fwd_file)) (inv : inverted) : inverted :=
  fold_left (fun inv f => fst (absorb inv (snd f))) files inv.

Definition is_pair (i : item) : bool :=
  match i with
  | Pair _ _ => true
  | BadItem => false
  end.

(** The files for which [_process_forward_index] returns [True]. *)
Definition readable (forward_file : fwd_file) : bool :=
  match forward_file with
  | Loaded ((_, forward_index) :: _) => forallb is_pair forward_index
  | _ => false
  end.

Definition count_readable (files : list (string * fwd_file)) : nat :=
  List.length (filter (fun f => readable (snd f)) files).

(** The pairs of one record entering the index. *)
Definition absorb_pairs (doc : string) (pairs : list (Z * Z)) (inv : inverted)
  : inverted :=
  fold_left (fun inv wp => add_posting inv doc (fst wp) (snd wp)) pairs inv.

Definition absorb_records (records : list record) (inv : inverted) : inverted :=
  fold_left (fun inv r => absorb_pairs (fst r) (snd r) inv) records inv.

(** A forward-index directory given by its records: every entry has a file
    name and a record, or [None] for a file that cannot be read. *)
Definition dir_of (entries : list (string * option record))
  : list (string * fwd_file) :=
  map (fun e => (fst e, file_of (snd e))) entries.

(** The records of the directory that the builder gets to see. *)
Definition records_in (entries : list (string * option record)) : list record :=
  records_of
    (map snd (filter (fun e => negb (String.eqb (fst e) stats_name)) entries)).


(** Position entries of the barrels before they are saved, and of the index
    entries whose word id has a word. *)
Definition barrels_size (barrels : list (string * barrel)) : nat :=
  list_sum (map (fun nb => barrel_size (snd nb)) barrels).

Definition resolved_size (id_to_word : list (Z * string)) (inv : inverted) : nat :=
  list_sum (map (fun e => if contains Z.eqb (fst e) id_to_word
                          then postings_size (snd e) else 0) inv).

(** The barrels that the second loop of [_save_barrels] does not skip. *)
Definition is_saved (nb : string * barrel) : bool :=
  match snd nb with
  | [] => false
  | _ => true
  end.

(** [self.inverted_index[word_id]] read without entering the key. *)
Definition postings_at (w : Z) (inv : inverted) : postings :=
  match get Z.eqb w inv with
  | Some docs => docs
  | None => []
  end.

(** The postings stored under a key of a barrel. *)
Definition get2 (barrels : list (string * barrel)) (barrel_name key : string)
  : option postings :=
  match get String.eqb barrel_name barrels with
  | None => None
  | Some b => get String.eqb key b
  end.

(** ** [_generate_barrel_names] *)

(** [string.ascii_lowercase] *)
Definition ascii_lowercase : string := "abcdefghijklmnopqrstuvwxyz".

Definition letters : list ascii := list_ascii_of_string ascii_lowercase.

(** The three nested loops over the letters, appending [f"{a}{b}{c}"]. *)
Definition _generate_barrel_names : list string :=
  flat_map
    (fun a =>
       flat_map
         (fun b => map (fun c => String a (String b (String c EmptyString))) letters)
         letters)
    letters.

(** Each element is below the next in the order of strings. *)
Fixpoint strictly_ascending (l : list string) : bool :=
  match l with
  | a :: (b :: _) as r => String.ltb a b && strictly_ascending r
  | _ => true
  end.

(** ** Reading the index *)

(** [self.inverted_index[w][d]] read without entering a key. *)
Definition stored_positions (inv : inverted) (w : Z) (d : string) : list Z :=
  match get String.eqb d (postings_at w inv) with
  | Some ps => ps
  | None => []
  end.

(** The positions of word id [w] in all records named [d], record after
    record. *)
Definition merged_positions (w : Z) (d : string) (records : list record) : list Z :=
  flat_map
    (fun r => if String.eqb (fst r) d then positions_of w (snd r) else [])
    records.

(** The word ids of all pairs of all records. *)
Definition word_ids (records : list record) : list Z :=
  flat_map (fun r => map fst (snd r)) records.

(** No entry of the index is empty: every word id has a document, every
    document a position. *)
Definition index_full (inv : inverted) : Prop :=
  Forall (fun e => snd e <> [] /\ Forall (fun dp => snd dp <> []) (snd e)) inv.

End Backward.

(* ================================================================== *)
(** * Facts about the primitives *)
(* ================================================================== *)

Module PyFacts.
Import Py.

Lemma fold_left_concat {A B : Type} (g : A -> B -> A) (bs : list (list B)) (a : A) :
  fold_left (fun acc batch => fold_left g batch acc) bs a
  = fold_left g (List.concat bs) a.
Proof.
  revert a. induction bs as [|b bs IH]; intros a; simpl.
  - reflexivity.
  - rewrite fold_left_app. apply IH.
Qed.

Lemma fold_left_map {A B C : Type} (g : A -> C -> A) (h : B -> C) (l : list B) (a : A) :
  fold_left g (map h l) a = fold_left (fun acc x => g acc (h x)) l a.
Proof.
  revert a. induction l as [|x l IH]; intros a; simpl; auto.
Qed.

Lemma fold_left_ext {A B : Type} (g h : A -> B -> A) (l : list B) (a : A) :
  (forall acc x, g acc x = h acc x) -> fold_left g l a = fold_left h l a.
Proof.
  intros H. revert a. induction l as [|x l IH]; intros a; simpl; [reflexivity|].
  now rewrite H, IH.
Qed.

Lemma concat_batches_fuel {A : Type} (size fuel : nat) (l : list A) :
  0 < size -> List.length l <= fuel ->
  List.concat (batches_fuel fuel size l) = l.
Proof.
  intros Hsize. revert l.
  induction fuel as [|fuel IH]; intros l Hlen.
  - destruct l; simpl in *; [reflexivity | lia].
  - destruct l as [|x l]; [reflexivity|].
    change (batches_fuel (S fuel) size (x :: l))
      with (firstn size (x :: l) :: batches_fuel fuel size (skipn size (x :: l))).
    simpl List.concat. rewrite IH.
    + apply firstn_skipn.
    + rewrite length_skipn. simpl in Hlen. simpl List.length. lia.
Qed.

(** The batches cut the list of files without losing or reordering any. *)
Lemma concat_batches {A : Type} (size : positive) (l : list A) :
  List.concat (batches size l) = l.
Proof.
  unfold batches. apply concat_batches_fuel.
  - apply Pos2Nat.is_pos.
  - apply Nat.le_refl.
Qed.

Lemma fold_batches {A B : Type} (g : A -> B -> A) (size : positive) (l : list B) (a : A) :
  fold_left (fun acc batch => fold_left g batch acc) (batches size l) a
  = fold_left g l a.
Proof.
  rewrite fold_left_concat, concat_batches. reflexivity.
Qed.

(** ** Dictionaries *)

Section DictFacts.
Context {K V : Type}.
Variable eqb : K -> K -> bool.
Hypothesis eqb_eq : forall a b, eqb a b = true <-> a = b.

Lemma eqb_refl (a : K) : eqb a a = true.
Proof. now apply eqb_eq. Qed.

Lemma eqb_neq (a b : K) : a <> b -> eqb a b = false.
Proof.
  intros H. destruct (eqb a b) eqn:E; [|reflexivity].
  apply eqb_eq in E. contradiction.
Qed.

Lemma key_dec (a b : K) : a = b \/ a <> b.
Proof.
  destruct (eqb a b) eqn:E.
  - left. now apply eqb_eq.
  - right. intros H. apply eqb_eq in H. congruence.
Qed.

Lemma get_None (k : K) (d : list (K * V)) :
  get eqb k d = None <-> ~ In k (keys d).
Proof.
  induction d as [|[k' v] d IH]; simpl.
  - tauto.
  - destruct (eqb k' k) eqn:E.
    + apply eqb_eq in E. split; [discriminate | tauto].
    + assert (k' <> k) by (intros H; apply eqb_eq in H; congruence). tauto.
Qed.

Lemma get_Some_In (k : K) (v : V) (d : list (K * V)) :
  get eqb k d = Some v -> In (k, v) d.
Proof.
  induction d as [|[k' v'] d IH]; simpl; [discriminate|].
  destruct (eqb k' k) eqn:E.
  - apply eqb_eq in E. intros [= ->]. left. now subst.
  - auto.
Qed.

Lemma In_get_Some (k : K) (v : V) (d : list (K * V)) :
  NoDup (keys d) -> In (k, v) d -> get eqb k d = Some v.
Proof.
  induction d as [|[k' v'] d IH]; simpl; [tauto|].
  intros Hnd [H | H].
  - injection H as -> ->. now rewrite eqb_refl.
  - inversion Hnd as [|? ? Hnotin Hnd']; subst.
    destruct (eqb k' k) eqn:E.
    + apply eqb_eq in E. subst k'. exfalso. apply Hnotin.
      change k with (fst (k, v)). now apply in_map.
    + now apply IH.
Qed.

Lemma get_app (k : K) (d1 d2 : list (K * V)) :
  get eqb k (d1 ++ d2)
  = match get eqb k d1 with Some v => Some v | None => get eqb k d2 end.
Proof.
  induction d1 as [|[k' v] d1 IH]; simpl; [reflexivity|].
  destruct (eqb k' k); auto.
Qed.

Lemma get_update_same (k : K) (f : V -> V) (dflt : V) (d : list (K * V)) :
  get eqb k (update eqb k f dflt d)
  = Some (f (match get eqb k d with Some v => v | None => dflt end)).
Proof.
  induction d as [|[k' v] d IH]; simpl.
  - now rewrite eqb_refl.
  - destruct (eqb k' k) eqn:E; simpl; rewrite E; auto.
Qed.

Lemma get_update_other (k k' : K) (f : V -> V) (dflt : V) (d : list (K * V)) :
  k' <> k -> get eqb k' (update eqb k f dflt d) = get eqb k' d.
Proof.
  intros Hne. induction d as [|[k0 v] d IH]; simpl.
  - rewrite eqb_neq; auto.
  - destruct (eqb k0 k) eqn:E; simpl.
    + apply eqb_eq in E. subst k0. rewrite eqb_neq; auto.
    + now rewrite IH.
Qed.

Lemma keys_update (k : K) (f : V -> V) (dflt : V) (d : list (K * V)) :
  keys (update eqb k f dflt d)
  = keys d ++ (if contains eqb k d then [] else [k]).
Proof.
  unfold contains. induction d as [|[k' v] d IH]; simpl.
  - reflexivity.
  - destruct (eqb k' k) eqn:E; simpl.
    + now rewrite app_nil_r.
    + f_equal. exact IH.
Qed.

Lemma assign_update (k : K) (v : V) (d : list (K * V)) :
  assign eqb k v d = update eqb k (fun _ => v) v d.
Proof.
  induction d as [|[k' v'] d IH]; simpl; [reflexivity|].
  destruct (eqb k' k); [reflexivity | now rewrite IH].
Qed.

Lemma assign_fresh (k : K) (v : V) (d : list (K * V)) :
  get eqb k d = None -> assign eqb k v d = d ++ [(k, v)].
Proof.
  induction d as [|[k' v'] d IH]; simpl; [reflexivity|].
  destruct (eqb k' k); [discriminate|]. intros H. now rewrite IH.
Qed.

Lemma update_fresh (k : K) (f : V -> V) (dflt : V) (d : list (K * V)) :
  get eqb k d = None -> update eqb k f dflt d = d ++ [(k, f dflt)].
Proof.
  induction d as [|[k' v'] d IH]; simpl; [reflexivity|].
  destruct (eqb k' k); [discriminate|]. intros H. now rewrite IH.
Qed.

Lemma update_app_fresh (k : K) (f : V -> V) (dflt : V) (d1 d2 : list (K * V)) :
  get eqb k d1 = None ->
  update eqb k f dflt (d1 ++ d2) = d1 ++ update eqb k f dflt d2.
Proof.
  induction d1 as [|[k' v'] d1 IH]; simpl; [reflexivity|].
  destruct (eqb k' k); [discriminate|]. intros H. now rewrite IH.
Qed.

Lemma Forall_update (Q : V -> Prop) (k : K) (f : V -> V) (dflt : V) (d : list (K * V)) :
  (forall v, Q (f v)) ->
  Forall (fun kv => Q (snd kv)) d ->
  Forall (fun kv => Q (snd kv)) (update eqb k f dflt d).
Proof.
  intros Hf. induction 1 as [|[k' v] d Hv Hd IH]; simpl.
  - repeat constructor. apply Hf.
  - destruct (eqb k' k); constructor; simpl; auto.
Qed.

Lemma NoDup_keys_update (k : K) (f : V -> V) (dflt : V) (d : list (K * V)) :
  NoDup (keys d) -> NoDup (keys (update eqb k f dflt d)).
Proof.
  intros Hnd. rewrite keys_update. unfold contains.
  destruct (get eqb k d) eqn:E.
  - now rewrite app_nil_r.
  - apply get_None in E.
    apply NoDup_app; [assumption | repeat constructor; simpl; tauto |].
    intros x Hx [<- | []]. contradiction.
Qed.

(** A comprehension over pairs with distinct keys keeps the pairs as they
    come. *)
Lemma of_pairs_from (pairs d : list (K * V)) :
  NoDup (keys d ++ keys pairs) ->
  fold_left (fun d kv => assign eqb (fst kv) (snd kv) d) pairs d = d ++ pairs.
Proof.
  revert d. induction pairs as [|[k v] pairs IH]; intros d Hnd; simpl.
  - now rewrite app_nil_r.
  - assert (Hk : get eqb k d = None).
    { apply get_None. intros Hin.
      apply NoDup_app_remove_r in Hnd as Hd.
      unfold keys in *. simpl in Hnd.
      apply NoDup_remove_2 in Hnd. apply Hnd. apply in_or_app. now left. }
    rewrite (assign_fresh _ _ _ Hk). rewrite IH.
    + now rewrite <- app_assoc.
    + unfold keys in *. rewrite map_app. simpl. rewrite <- app_assoc. exact Hnd.
Qed.

Lemma of_pairs_NoDup (pairs : list (K * V)) :
  NoDup (keys pairs) -> of_pairs eqb pairs = pairs.
Proof.
  intros H. unfold of_pairs. now rewrite of_pairs_from.
Qed.

End DictFacts.

End PyFacts.

(* ================================================================== *)
(** * The forward index builder *)
(* ================================================================== *)

Module ForwardProofs.
Import Py Forward PyFacts.










(** C10. A document none of whose tokens is in the lexicon is counted as
    processed and gets a record with an empty array, but the record is the
    JSON object of the documented shape only when the document name needs no
    escaping: for the document named a, quote, b the text written does not
    read as a JSON object at all, where for the document ab it reads as the
    object that maps ab to the empty array. *)
Theorem C10_record_of_a_name_with_a_quote :
  let self := init [("star", 1%Z)] 100 in
  let doc_name := String "a" (String dquote "b") in
  let f := {| stem := doc_name; text := Some "xyzzyqq plugh" |} in
  findall_words "xyzzyqq plugh" = ["xyzzyqq"; "plugh"]
  /\ _process_single_file self f
     = (self, [((doc_name ++ ".json")%string, render doc_name [])], (doc_name, true))
  /\ option_map (fun r => (successful r, failed r)) (build_indexes self [f])
     = Some (1%Z, 0%Z)
  /\ read_empty_record (render doc_name []) = None
  /\ read_empty_record (render "ab" []) = Some "ab".
Proof.
  vm_compute. repeat split; reflexivity.
Qed.

(** Nothing in a run writes the unresolved counter of the statistics: the
    builder comes out of every file as it went in. *)
Lemma _process_single_file_keeps_builder (self : builder) (f : txt_file) :
  fst (fst (_process_single_file self f)) = self.
Proof.
  unfold _process_single_file. destruct (text f); [|reflexivity].
  destruct (index_words _ _). reflexivity.
Qed.

Lemma process_batch_keeps_builder (batch : list txt_file) : forall acc : run_result,
  self_after (process_batch acc batch) = self_after acc.
Proof.
  unfold process_batch.
  induction batch as [|f batch IH]; intros acc; cbn [fold_left]; [reflexivity|].
  rewrite IH.
  pose proof (_process_single_file_keeps_builder (self_after acc) f) as H.
  destruct (_process_single_file (self_after acc) f) as [[self' w] [n ok]].
  exact H.
Qed.

Lemma build_indexes_keeps_unresolved_counter (self : builder) (dir : list txt_file)
  (r : run_result) :
  build_indexes self dir = Some r ->
  words_not_in_lexicon (self_stats (self_after r))
  = words_not_in_lexicon (self_stats self).
Proof.
  assert (H : forall (bs : list (list txt_file)) (acc : run_result),
             self_after (fold_left process_batch bs acc) = self_after acc).
  { induction bs as [|b bs IHb]; intros acc; cbn [fold_left]; [reflexivity|].
    rewrite IHb. apply process_batch_keeps_builder. }
  unfold build_indexes. cbv zeta.
  destruct (_get_txt_files dir) as [|f fs]; [discriminate|].
  set (r0 := fold_left process_batch _ _).
  assert (Hr0 : self_after r0 = self) by (subst r0; now rewrite H).
  intros [= <-]. cbn [self_after self_stats words_not_in_lexicon].
  now rewrite Hr0.
Qed.

(** C3. On the token stream star, star, nebula, xyzzyqq with the lexicon
    star -> 1, nebula -> 2 the forward index is [[1,0],[1,1],[2,2]] and the
    local counter [words_skipped] ends at 1; the counter of the statistics,
    [words_not_in_lexicon], is still 0 after the document and after the
    whole run. *)
Theorem C3_forward_index_example :
  let lex := [("star", 1%Z); ("nebula", 2%Z)] in
  let self := init lex 100 in
  let f := {| stem := "doc"; text := Some "star star nebula xyzzyqq" |} in
  findall_words "star star nebula xyzzyqq" = ["star"; "star"; "nebula"; "xyzzyqq"]
  /\ index_words lex ["star"; "star"; "nebula"; "xyzzyqq"]
     = ([(1, 0); (1, 1); (2, 2)]%Z, 1%Z)
  /\ words_not_in_lexicon (self_stats (fst (fst (_process_single_file self f)))) = 0%Z
  /\ option_map (fun r => words_not_in_lexicon (self_stats (self_after r)))
       (build_indexes self [f]) = Some 0%Z.
Proof.
  vm_compute. repeat split; reflexivity.
Qed.

End ForwardProofs.

(* ================================================================== *)
(** * The lexicon builder *)
(* ================================================================== *)

Module LexiconProofs.
Import Py Lexicon PyFacts.

(** ** Strings *)




Lemma lower_is_lower (c : ascii) : is_lower c = true -> is_upper c = false.
Proof.
  unfold is_lower, is_upper, in_range.
  rewrite andb_true_iff, andb_false_iff, !N.leb_le, !N.leb_gt. lia.
Qed.

Lemma lower_lowercase (w : string) : all_chars is_lower w = true -> lower w = w.
Proof.
  induction w as [|c w IH]; simpl; [reflexivity|].
  rewrite andb_true_iff. intros [Hc Hw].
  unfold lower_char. rewrite (lower_is_lower c Hc), (IH Hw). reflexivity.
Qed.

Lemma all_lower_letters (w : string) :
  all_chars is_lower w = true -> all_chars is_letter w = true.
Proof.
  induction w as [|c w IH]; simpl; [reflexivity|].
  rewrite !andb_true_iff. intros [Hc Hw]. split; [|auto].
  unfold is_letter. rewrite Hc. apply orb_true_r.
Qed.

Lemma set_contains_In (w : string) (s : list string) :
  set_contains w s = true <-> In w s.
Proof.
  unfold set_contains. rewrite existsb_exists. split.
  - intros (x & Hin & Heq). apply String.eqb_eq in Heq. now subst.
  - intros Hin. exists w. split; [assumption | apply String.eqb_refl].
Qed.

(** ** The streak loops *)








(** ** The repeated character *)


(** ** The filter as a whole *)




Lemma build_call_writes (english_words : list string) (batch_size : positive)
  (self_stats : stats) (dir : list txt_file) :
  writes (build_call english_words batch_size self_stats dir)
  = snd (build english_words batch_size self_stats dir).
Proof.
  unfold build_call, build. destruct (_get_txt_files dir); reflexivity.
Qed.

(** C9, as the code has it.  A call of [build] on an empty input set does
    not end in an error: it returns to its caller, as a build that wrote its
    files does.  With no text file to read it prints the warning and returns
    at once, the statistics of the builder as they were, nothing written; and
    the empty input set is the only one for which no lexicon file is
    written. *)
Theorem C9_empty_corpus_returns_without_lexicon :
  forall (english_words : list string) (batch_size : positive)
         (self_stats : stats) (dir : list txt_file),
    let c := build_call english_words batch_size self_stats dir in
    ends c = Returns_None
    /\ (_get_txt_files dir = [] ->
        warned c = true /\ stats_after c = self_stats /\ writes c = [])
    /\ (writes c = [] <-> _get_txt_files dir = [])
    /\ ((exists lex, In ("lexicon.json", LexiconJson lex) (writes c))
        <-> _get_txt_files dir <> []).
Proof.
  intros english b st dir c. subst c. unfold build_call, build.
  destruct (_get_txt_files dir) as [|f fs] eqn:E; cbn [ends warned stats_after writes snd].
  - split; [reflexivity|]. split; [auto|]. split; [tauto|].
    split; [intros (lex & []) | congruence].
  - split; [reflexivity|]. split; [discriminate|]. split.
    + split; discriminate.
    + split; [discriminate|]. intros _. eexists. left. reflexivity.
Qed.

Lemma C9_witness_only_excluded_file :
  let c := build_call ["star"] 200 {| total_files := 0; unique_words := 0 |}
             [{| stem := "vocabulary"; text := Some "star nebula" |}] in
  warned c = true
  /\ stats_after c = {| total_files := 0; unique_words := 0 |}
  /\ writes c = [].
Proof.
  cbv zeta.
  apply (C9_empty_corpus_returns_without_lexicon ["star"] 200
           {| total_files := 0; unique_words := 0 |}
           [{| stem := "vocabulary"; text := Some "star nebula" |}]).
  reflexivity.
Defined.

(** C9 as stated fails: on the empty input set [build] does not end in an
    error.  It ends as the build of a corpus with a readable file ends, by
    returning to its caller. *)
Lemma C9_counterexample_empty_corpus_is_no_error :
  let st := {| total_files := 0; unique_words := 0 |} in
  let empty := build_call ["star"] 200 st [] in
  let full := build_call ["star"] 200 st [{| stem := "a"; text := Some "star" |}] in
  ends empty <> Raises
  /\ ends empty = ends full
  /\ writes empty = []
  /\ writes full <> [].
Proof.
  cbv zeta. vm_compute. repeat split; discriminate.
Qed.

(** ** Sets of words *)

Lemma set_add_In (x w : string) (s : list string) :
  In x (set_add w s) <-> x = w \/ In x s.
Proof.
  unfold set_add. destruct (set_contains w s) eqn:E.
  - apply set_contains_In in E. split; [auto | intros [-> | H]; auto].
  - rewrite in_app_iff. simpl. split; intros H; [|destruct H]; intuition auto.
Qed.

Lemma set_add_NoDup (w : string) (s : list string) :
  NoDup s -> NoDup (set_add w s).
Proof.
  intros Hnd. unfold set_add. destruct (set_contains w s) eqn:E; [assumption|].
  apply NoDup_app; [assumption | repeat constructor; simpl; tauto |].
  intros x Hx [<- | []]. apply set_contains_In in Hx. congruence.
Qed.

Lemma set_update_In (x : string) (t : list string) : forall s,
  In x (set_update s t) <-> In x s \/ In x t.
Proof.
  unfold set_update. induction t as [|w t IH]; intros s; simpl.
  - tauto.
  - rewrite IH, set_add_In. intuition auto.
Qed.

Lemma set_update_NoDup (t : list string) : forall s,
  NoDup s -> NoDup (set_update s t).
Proof.
  unfold set_update. induction t as [|w t IH]; intros s Hs; simpl; auto.
  apply IH. now apply set_add_NoDup.
Qed.

Section Collect.
Variable english_words : list string.
Variable batch_size : positive.

Lemma valid_words_In (tokens : list string) : forall (acc : list string) (w : string),
  In w (fold_left
          (fun valid_words word =>
             let word_lower := lower word in
             if _is_valid_word english_words word_lower
             then set_add word_lower valid_words else valid_words)
          tokens acc)
  <-> In w acc
      \/ exists token, In token tokens /\ w = lower token
                       /\ _is_valid_word english_words w = true.
Proof.
  induction tokens as [|t tokens IH]; intros acc w; simpl.
  - split; [auto | intros [H | (t & [] & _)]; auto].
  - rewrite IH. destruct (_is_valid_word english_words (lower t)) eqn:E.
    + rewrite set_add_In. split.
      * intros [[-> | H] | (t' & Hin & Hw & Hv)]; auto.
        -- right. exists t. auto.
        -- right. exists t'. auto.
      * intros [H | (t' & [<- | Hin] & Hw & Hv)]; auto.
        right. exists t'. auto.
    + split.
      * intros [H | (t' & Hin & Hw & Hv)]; auto. right. exists t'. auto.
      * intros [H | (t' & [<- | Hin] & Hw & Hv)]; auto.
        -- subst w. congruence.
        -- right. exists t'. auto.
Qed.

Lemma _process_file_In (f : txt_file) (w : string) :
  In w (_process_file english_words f)
  <-> exists content token,
        text f = Some content /\ In token (findall_words content)
        /\ w = lower token /\ _is_valid_word english_words w = true.
Proof.
  unfold _process_file. destruct (text f) as [content|].
  - rewrite valid_words_In. split.
    + intros [[] | (t & H)]. exists content, t. auto.
    + intros (c & t & [= <-] & H). right. exists t. auto.
  - split; [intros [] | intros (c & t & H & _); discriminate].
Qed.

Lemma collect_eq (txt_files : list txt_file) :
  collect english_words batch_size txt_files
  = fold_left (fun all_words f => set_update all_words (_process_file english_words f))
      txt_files [].
Proof.
  unfold collect.
  rewrite <- (fold_batches
                (fun all_words f => set_update all_words (_process_file english_words f))
                batch_size txt_files []).
  apply fold_left_ext. intros acc batch. apply fold_left_map.
Qed.

Lemma collect_from_In (txt_files : list txt_file) : forall (acc : list string) (w : string),
  In w (fold_left (fun all_words f => set_update all_words (_process_file english_words f))
          txt_files acc)
  <-> In w acc \/ accepted english_words txt_files w.
Proof.
  unfold accepted.
  induction txt_files as [|f fs IH]; intros acc w; simpl.
  - split; [auto | intros [H | (f & c & t & [] & _)]; auto].
  - rewrite IH, set_update_In, _process_file_In. split.
    + intros [[H | (c & t & H)] | (f' & c & t & Hin & H)]; auto.
      * right. exists f, c, t. auto.
      * right. exists f', c, t. auto.
    + intros [H | (f' & c & t & [<- | Hin] & H)]; auto.
      * left. right. exists c, t. auto.
      * right. exists f', c, t. auto.
Qed.

Lemma collect_from_NoDup (txt_files : list txt_file) : forall acc : list string,
  NoDup acc ->
  NoDup (fold_left (fun all_words f => set_update all_words (_process_file english_words f))
           txt_files acc).
Proof.
  induction txt_files as [|f fs IH]; intros acc Hacc; simpl; auto.
  apply IH. now apply set_update_NoDup.
Qed.

Lemma collect_In (txt_files : list txt_file) (w : string) :
  In w (collect english_words batch_size txt_files)
  <-> accepted english_words txt_files w.
Proof.
  rewrite collect_eq, collect_from_In. simpl. tauto.
Qed.

Lemma collect_NoDup (txt_files : list txt_file) :
  NoDup (collect english_words batch_size txt_files).
Proof.
  rewrite collect_eq. apply collect_from_NoDup. constructor.
Qed.

End Collect.

(** ** Sorting *)

Lemma word_lt_trans (a b c : string) : word_lt a b -> word_lt b c -> word_lt a c.
Proof.
  unfold word_lt. intros H1 H2.
  apply OrderedTypeEx.String_as_OT.cmp_lt in H1, H2.
  apply OrderedTypeEx.String_as_OT.cmp_lt.
  eapply OrderedTypeEx.String_as_OT.lt_trans; eauto.
Qed.

Lemma word_lt_irrefl (a : string) : ~ word_lt a a.
Proof.
  unfold word_lt. intros H.
  assert (E : String.compare a a = Eq)
    by now apply OrderedTypeEx.String_as_OT.cmp_eq.
  congruence.
Qed.

Lemma leb_word_lt (a b : string) : String.leb a b = true -> a <> b -> word_lt a b.
Proof.
  unfold String.leb, word_lt. intros H Hne.
  destruct (String.compare a b) eqn:E; [|reflexivity|discriminate].
  apply String.compare_eq_iff in E. contradiction.
Qed.

Lemma leb_false_word_lt (a b : string) : String.leb a b = false -> word_lt b a.
Proof.
  unfold String.leb, word_lt. intros H. rewrite String.compare_antisym.
  destruct (String.compare a b); try discriminate. reflexivity.
Qed.

Lemma insert_sorted_In (x w : string) (l : list string) :
  In x (insert_sorted w l) <-> x = w \/ In x l.
Proof.
  induction l as [|y l IH]; simpl.
  - intuition auto.
  - destruct (String.leb w y); simpl; [|rewrite IH]; intuition auto.
Qed.

Lemma sorted_In (x : string) (l : list string) : In x (sorted l) <-> In x l.
Proof.
  induction l as [|w l IH]; simpl; [tauto|].
  rewrite insert_sorted_In, IH. intuition auto.
Qed.

Lemma insert_sorted_strict (w : string) (l : list string) :
  ~ In w l -> StronglySorted word_lt l -> StronglySorted word_lt (insert_sorted w l).
Proof.
  intros Hnin Hs. induction Hs as [|y l Hs IH Hall]; simpl.
  - repeat constructor.
  - destruct (String.leb w y) eqn:E.
    + assert (Hwy : word_lt w y).
      { apply leb_word_lt; [assumption|]. intros ->. apply Hnin. now left. }
      constructor; [now constructor|].
      constructor; [assumption|].
      eapply Forall_impl; [|exact Hall]. intros z Hz. eapply word_lt_trans; eauto.
    + constructor.
      * apply IH. intros H. apply Hnin. now right.
      * apply Forall_forall. intros z Hz. apply insert_sorted_In in Hz as [-> | Hz].
        -- now apply leb_false_word_lt.
        -- rewrite Forall_forall in Hall. auto.
Qed.

Lemma sorted_strict (l : list string) : NoDup l -> StronglySorted word_lt (sorted l).
Proof.
  induction 1 as [|w l Hnin Hnd IH]; simpl; [constructor|].
  apply insert_sorted_strict; [|assumption]. now rewrite sorted_In.
Qed.

(** A strictly sorted list is determined by its elements. *)
Lemma strict_sorted_unique (l1 : list string) : forall l2,
  StronglySorted word_lt l1 -> StronglySorted word_lt l2 ->
  (forall x, In x l1 <-> In x l2) -> l1 = l2.
Proof.
  induction l1 as [|a l1 IH]; intros l2 H1 H2 Hmem.
  - destruct l2 as [|b l2]; [reflexivity|].
    exfalso. apply (Hmem b). now left.
  - destruct l2 as [|b l2].
    { exfalso. apply (Hmem a). now left. }
    inversion H1 as [|? ? Hs1 Hall1]; subst.
    inversion H2 as [|? ? Hs2 Hall2]; subst.
    rewrite Forall_forall in Hall1, Hall2.
    assert (Hab : a = b).
    { destruct (proj1 (Hmem a) (or_introl eq_refl)) as [Ha | Ha]; [auto|].
      destruct (proj2 (Hmem b) (or_introl eq_refl)) as [Hb | Hb]; [auto|].
      exfalso. apply (word_lt_irrefl a).
      eapply word_lt_trans; [apply Hall1; exact Hb | apply Hall2; exact Ha]. }
    subst b. f_equal. apply IH; auto.
    intros x. split; intros Hx.
    + destruct (proj1 (Hmem x) (or_intror Hx)) as [<- | H]; [|assumption].
      exfalso. apply (word_lt_irrefl a). now apply Hall1.
    + destruct (proj2 (Hmem x) (or_intror Hx)) as [<- | H]; [|assumption].
      exfalso. apply (word_lt_irrefl a). now apply Hall2.
Qed.

Lemma strict_sorted_NoDup (l : list string) : StronglySorted word_lt l -> NoDup l.
Proof.
  induction 1 as [|a l Hs IH Hall]; constructor; [|assumption].
  intros Hin. rewrite Forall_forall in Hall. apply (word_lt_irrefl a). auto.
Qed.

(** ** The ids *)

Lemma enumerate_words (ws : list string) : forall start,
  map fst (map (fun iw : Z * string => (snd iw, fst iw)) (enumerate start ws)) = ws.
Proof.
  induction ws as [|w ws IH]; intros start; simpl; [reflexivity|].
  now rewrite IH.
Qed.

Lemma enumerate_ids (ws : list string) : forall start : nat,
  map snd (map (fun iw : Z * string => (snd iw, fst iw)) (enumerate (Z.of_nat start) ws))
  = map Z.of_nat (seq start (List.length ws)).
Proof.
  induction ws as [|w ws IH]; intros start; simpl; [reflexivity|].
  f_equal. replace (Z.of_nat start + 1)%Z with (Z.of_nat (S start)) by lia.
  apply IH.
Qed.

Lemma make_lexicon_eq (all_words : list string) :
  NoDup all_words ->
  make_lexicon all_words
  = map (fun iw : Z * string => (snd iw, fst iw)) (enumerate 1 (sorted all_words)).
Proof.
  intros Hnd. unfold make_lexicon.
  apply (of_pairs_NoDup String.eqb String.eqb_eq).
  unfold keys. rewrite enumerate_words.
  apply strict_sorted_NoDup. now apply sorted_strict.
Qed.

(** C2. When there is a text file to read, [build] writes a lexicon whose
    words are exactly the accepted words of the corpus, in strictly
    increasing lexicographic order, and whose ids are 1, 2, ..., N in that
    order.  The lexicon depends on the set of accepted words only: any other
    build (other batch size, other file order, the same input again) whose
    corpus has the same accepted words writes the same lexicon. *)
Theorem C2_lexicon_ids_follow_sorted_words :
  forall (english_words : list string) (batch_size : positive)
         (self_stats : stats) (dir : list txt_file),
    _get_txt_files dir <> [] ->
    exists lex : lexicon,
      In ("lexicon.json", LexiconJson lex)
         (snd (build english_words batch_size self_stats dir))
      /\ StronglySorted word_lt (map fst lex)
      /\ (forall w, In w (map fst lex)
                    <-> accepted english_words (_get_txt_files dir) w)
      /\ map snd lex = map Z.of_nat (seq 1 (List.length lex))
      /\ forall (batch_size' : positive) (self_stats' : stats)
                (dir' : list txt_file) (lex' : lexicon),
           (forall w, accepted english_words (_get_txt_files dir) w
                      <-> accepted english_words (_get_txt_files dir') w) ->
           In ("lexicon.json", LexiconJson lex')
              (snd (build english_words batch_size' self_stats' dir')) ->
           lex' = lex.
Proof.
  intros english b st dir Hne.
  set (files := _get_txt_files dir) in *.
  set (ws := collect english b files).
  assert (Hnd : NoDup ws) by apply collect_NoDup.
  assert (Hbuild : forall b' st' dir',
             forall lex', In ("lexicon.json", LexiconJson lex')
                             (snd (build english b' st' dir')) ->
                          lex' = make_lexicon (collect english b' (_get_txt_files dir'))).
  { intros b' st' dir' lex'. unfold build.
    destruct (_get_txt_files dir') as [|f fs]; simpl; [tauto|].
    intros [H | [H | []]]; [|discriminate]. now injection H as <-. }
  exists (make_lexicon ws). split; [|split; [|split; [|split]]].
  - unfold build. fold files. destruct files as [|f fs] eqn:E; [congruence|].
    left. reflexivity.
  - rewrite (make_lexicon_eq ws Hnd), enumerate_words. now apply sorted_strict.
  - intros w. rewrite (make_lexicon_eq ws Hnd), enumerate_words, sorted_In.
    apply collect_In.
  - rewrite (make_lexicon_eq ws Hnd). rewrite length_map.
    change 1%Z with (Z.of_nat 1). rewrite enumerate_ids. f_equal. f_equal.
    clear. generalize (Z.of_nat 1).
    induction (sorted ws) as [|x l IH]; intros z; simpl; auto.
  - intros b' st' dir' lex' Hsame Hin.
    rewrite (Hbuild _ _ _ _ Hin).
    set (ws' := collect english b' (_get_txt_files dir')).
    assert (Hnd' : NoDup ws') by apply collect_NoDup.
    rewrite (make_lexicon_eq ws Hnd), (make_lexicon_eq ws' Hnd').
    f_equal. f_equal.
    apply strict_sorted_unique; try now apply sorted_strict.
    intros x. rewrite !sorted_In. unfold ws, ws'. rewrite !collect_In.
    symmetry. apply Hsame.
Qed.

Lemma C2_witness_two_files :
  exists lex : lexicon,
    In ("lexicon.json", LexiconJson lex)
       (snd (build ["star"] 200 {| total_files := 0; unique_words := 0 |}
               [{| stem := "a"; text := Some "star nebula" |};
                {| stem := "b"; text := Some "Comet star" |}]))
    /\ map fst lex = ["comet"; "nebula"; "star"]
    /\ map snd lex = [1; 2; 3]%Z.
Proof.
  destruct (C2_lexicon_ids_follow_sorted_words ["star"] 200
              {| total_files := 0; unique_words := 0 |}
              [{| stem := "a"; text := Some "star nebula" |};
               {| stem := "b"; text := Some "Comet star" |}])
    as (lex & Hin & _).
  - discriminate.
  - exists lex. split; [exact Hin|].
    vm_compute in Hin. destruct Hin as [H | [H | []]]; [|discriminate].
    injection H as <-. split; reflexivity.
Defined.

End LexiconProofs.

(* ================================================================== *)
(** * The backward index builder *)
(* ================================================================== *)

Module BackwardProofs.
Import Py Backward PyFacts.

(** ** Barrel addressing *)

(** C4. The barrel name of a word is the first three characters of the
    lowercased word, padded on the right with [a] up to three characters;
    it is a function of the text of the word and of nothing else. *)
Theorem C4_barrel_addressing :
  (forall word : string, _get_barrel_name word = barrel_key word)
  /\ (forall word : string, String.length (_get_barrel_name word) = 3)
  /\ _get_barrel_name "nebula" = "neb"
  /\ _get_barrel_name "a" = "aaa"
  /\ _get_barrel_name "ab" = "aba".
Proof.
  split; [|split; [|repeat split]].
  - intros [|a [|b [|c [|d r]]]]; reflexivity.
  - intros [|a [|b [|c [|d r]]]]; reflexivity.
Qed.

(** ** One file, one run *)

Lemma with_index_same (self : builder) : with_index self (inverted_index self) = self.
Proof. destruct self; reflexivity. Qed.

Lemma _process_forward_index_absorb (self : builder) (f : fwd_file) :
  _process_forward_index self f
  = (with_index self (fst (absorb (inverted_index self) f)),
     snd (absorb (inverted_index self) f)).
Proof.
  destruct f as [|[|[doc fi] rest]]; simpl; try now rewrite with_index_same.
  destruct (flip doc fi (inverted_index self)); reflexivity.
Qed.

Lemma flip_ok (doc : string) (fi : list item) : forall inv,
  snd (flip doc fi inv) = forallb is_pair fi.
Proof.
  induction fi as [|[w p|] fi IH]; intros inv; simpl; auto.
Qed.

Lemma absorb_ok (inv : inverted) (f : fwd_file) : snd (absorb inv f) = readable f.
Proof.
  destruct f as [|[|[doc fi] rest]]; simpl; auto. apply flip_ok.
Qed.

Lemma process_files (files : list (string * fwd_file)) : forall (self : builder) (n : Z),
  fold_left
    (fun acc f =>
       let '(self, successful) := acc in
       let '(self', ok) := _process_forward_index self (snd f) in
       (self', if ok then (successful + 1)%Z else successful))
    files (self, n)
  = (with_index self (index_of files (inverted_index self)),
     (n + Z.of_nat (count_readable files))%Z).
Proof.
  induction files as [|f files IH]; intros self n.
  - simpl. rewrite with_index_same. f_equal. unfold count_readable. simpl. lia.
  - cbn [fold_left]. rewrite _process_forward_index_absorb, absorb_ok.
    rewrite IH. unfold index_of, count_readable. simpl.
    f_equal. destruct (readable (snd f)); simpl; lia.
Qed.

Lemma process_batches (self : builder) (files : list (string * fwd_file)) :
  fold_left process_batch (batches (batch_size self) files) (self, 0%Z)
  = (with_index self (index_of files (inverted_index self)),
     Z.of_nat (count_readable files)).
Proof.
  unfold process_batch.
  rewrite (fold_batches
             (fun (acc : builder * Z) (f : string * fwd_file) =>
                let '(self, successful) := acc in
                let '(self', ok) := _process_forward_index self (snd f) in
                (self', if ok then (successful + 1)%Z else successful))).
  now rewrite process_files.
Qed.

(** [build_inverted_index] in terms of the index that the files leave. *)
Lemma build_inverted_index_eq (self : builder) (dir : list (string * fwd_file)) :
  build_inverted_index self dir
  = match _get_forward_index_files dir with
    | [] => (self, [])
    | _ :: _ =>
        let inv := index_of (_get_forward_index_files dir) (inverted_index self) in
        let saved := save (distribute (id_to_word self) inv) in
        ({| lexicon := lexicon self; id_to_word := id_to_word self;
            inverted_index := [];
            batch_size := batch_size self;
            self_stats :=
              {| files_processed := Z.of_nat (count_readable (_get_forward_index_files dir));
                 total_words_indexed := Z.of_nat (List.length inv);
                 barrels_created := snd saved |} |},
         fst saved)
    end.
Proof.
  unfold build_inverted_index.
  destruct (_get_forward_index_files dir) as [|f files] eqn:E; [reflexivity|].
  rewrite process_batches. unfold _save_barrels. simpl.
  destruct (save _) as [fs n]. reflexivity.
Qed.

Lemma index_of_app (l1 l2 : list (string * fwd_file)) (inv : inverted) :
  index_of (l1 ++ l2) inv = index_of l2 (index_of l1 inv).
Proof. unfold index_of. apply fold_left_app. Qed.

Lemma count_readable_app (l1 l2 : list (string * fwd_file)) :
  count_readable (l1 ++ l2) = count_readable l1 + count_readable l2.
Proof. unfold count_readable. now rewrite filter_app, length_app. Qed.



(** ** The index that the records leave *)

Lemma str_inj (a b : Z) : str a = str b -> a = b.
Proof.
  unfold str. intros H.
  assert (Hnn : forall z, Z.to_int z <> Pos Nil /\ Z.to_int z <> Neg Nil).
  { intros [|p|p]; simpl; split; try discriminate;
      intros [= E]; now apply DecimalPos.Unsigned.to_uint_nonnil in E. }
  apply DecimalZ.to_int_inj.
  assert (E : Some (Z.to_int a) = Some (Z.to_int b)).
  { rewrite <- (NilZero.isi (Z.to_int a)), <- (NilZero.isi (Z.to_int b));
      try apply Hnn. now rewrite H. }
  now injection E.
Qed.

Lemma flip_pairs (doc : string) (pairs : list (Z * Z)) : forall inv,
  flip doc (map (fun wp => Pair (fst wp) (snd wp)) pairs) inv
  = (absorb_pairs doc pairs inv, true).
Proof.
  induction pairs as [|[w p] pairs IH]; intros inv; simpl; [reflexivity|].
  apply IH.
Qed.

Lemma index_of_dir (entries : list (string * option record)) : forall inv,
  index_of (_get_forward_index_files (dir_of entries)) inv
  = absorb_records (records_in entries) inv.
Proof.
  unfold index_of, _get_forward_index_files, dir_of, records_in, absorb_records.
  induction entries as [|[name r] entries IH]; intros inv; simpl; [reflexivity|].
  destruct (String.eqb name stats_name); simpl; [apply IH|].
  destruct r as [[doc pairs]|]; simpl.
  - rewrite flip_pairs. simpl. apply IH.
  - apply IH.
Qed.

Lemma count_readable_dir (entries : list (string * option record)) :
  count_readable (_get_forward_index_files (dir_of entries))
  = List.length (records_in entries).
Proof.
  unfold count_readable, _get_forward_index_files, dir_of, records_in.
  induction entries as [|[name r] entries IH]; simpl; [reflexivity|].
  destruct (String.eqb name stats_name); simpl; [apply IH|].
  destruct r as [[doc pairs]|]; simpl.
  - assert (E : forallb is_pair (map (fun wp => Pair (fst wp) (snd wp)) pairs) = true).
    { clear. induction pairs; simpl; auto. }
    rewrite E. simpl. now rewrite IH.
  - apply IH.
Qed.

Lemma positions_of_app (w : Z) (l1 l2 : list (Z * Z)) :
  positions_of w (l1 ++ l2) = positions_of w l1 ++ positions_of w l2.
Proof. unfold positions_of. now rewrite filter_app, map_app. Qed.

Lemma get_add_posting_same (inv : inverted) (doc : string) (w p : Z) :
  get Z.eqb w (add_posting inv doc w p)
  = Some (update String.eqb doc (fun ps => ps ++ [p]) [] (postings_at w inv)).
Proof. unfold add_posting, postings_at. apply (get_update_same Z.eqb Z.eqb_eq). Qed.

Lemma get_add_posting_other (inv : inverted) (doc : string) (w w' p : Z) :
  w' <> w -> get Z.eqb w' (add_posting inv doc w p) = get Z.eqb w' inv.
Proof. unfold add_posting. apply (get_update_other Z.eqb Z.eqb_eq). Qed.

(** The postings of [w] after one record whose document is new to them. *)
Lemma absorb_pairs_get (doc : string) (w : Z) (inv : inverted) (base : postings) :
  base = postings_at w inv ->
  get String.eqb doc base = None ->
  forall pairs,
    get Z.eqb w (absorb_pairs doc pairs inv)
    = match positions_of w pairs with
      | [] => get Z.eqb w inv
      | ps => Some (base ++ [(doc, ps)])
      end.
Proof.
  intros Hbase Hfresh pairs.
  induction pairs as [|[w' p] pairs IH] using rev_ind; [reflexivity|].
  unfold absorb_pairs in *. rewrite fold_left_app. cbn [fold_left fst snd].
  rewrite positions_of_app. unfold positions_of at 2. cbn [filter fst].
  destruct (Z.eqb_spec w' w) as [-> | Hne].
  - rewrite get_add_posting_same. cbn [map snd].
    destruct (positions_of w pairs) as [|q qs].
    + unfold postings_at at 1. rewrite IH. fold (postings_at w inv). rewrite <- Hbase.
      rewrite (update_fresh String.eqb _ _ _ _ Hfresh). reflexivity.
    + unfold postings_at at 1. rewrite IH.
      rewrite (update_app_fresh String.eqb _ _ _ _ _ Hfresh).
      simpl. rewrite String.eqb_refl. reflexivity.
  - rewrite get_add_posting_other by congruence.
    cbn [map]. rewrite app_nil_r. exact IH.
Qed.

Lemma scan_app (w : Z) (l1 l2 : list record) :
  scan w (l1 ++ l2) = scan w l1 ++ scan w l2.
Proof. unfold scan. apply flat_map_app. Qed.

Lemma scan_In (w : Z) (rs : list record) (doc : string) (ps : list Z) :
  In (doc, ps) (scan w rs)
  <-> exists pairs, In (doc, pairs) rs /\ ps = positions_of w pairs /\ ps <> [].
Proof.
  unfold scan. rewrite in_flat_map. split.
  - intros ([d pairs] & Hin & H). simpl in H.
    destruct (positions_of w pairs) as [|q qs] eqn:E; [contradiction|].
    destruct H as [[= <- <-] | []]. exists pairs. rewrite E. repeat split; auto.
    discriminate.
  - intros (pairs & Hin & -> & Hne). exists (doc, pairs). split; [assumption|].
    simpl. destruct (positions_of w pairs); [congruence | now left].
Qed.

Lemma scan_keys (w : Z) (rs : list record) (doc : string) :
  In doc (keys (scan w rs)) -> In doc (map fst rs).
Proof.
  unfold keys. rewrite in_map_iff. intros ([d ps] & <- & Hin).
  apply scan_In in Hin as (pairs & Hin & _).
  simpl. apply in_map_iff. exists (d, pairs). auto.
Qed.


Lemma absorb_records_snoc (rs : list record) (r : record) (inv : inverted) :
  absorb_records (rs ++ [r]) inv
  = absorb_pairs (fst r) (snd r) (absorb_records rs inv).
Proof. unfold absorb_records. now rewrite fold_left_app. Qed.

(** With one record per document, the index holds for every word id the
    result of the scan, the documents in the order of the records. *)
Lemma scan_single (w : Z) (r : record) :
  scan w [r] = match positions_of w (snd r) with [] => [] | ps => [(fst r, ps)] end.
Proof. unfold scan. simpl. apply app_nil_r. Qed.

Lemma absorb_records_get (rs : list record) :
  NoDup (map fst rs) ->
  forall w,
    get Z.eqb w (absorb_records rs [])
    = match scan w rs with [] => None | s => Some s end.
Proof.
  induction rs as [|r rs IH] using rev_ind; intros Hnd w; [reflexivity|].
  rewrite map_app in Hnd. simpl in Hnd.
  assert (Hnd' : NoDup (map fst rs)) by now apply NoDup_app_remove_r in Hnd.
  assert (Hnin : ~ In (fst r) (map fst rs)).
  { apply NoDup_remove_2 in Hnd. now rewrite app_nil_r in Hnd. }
  rewrite absorb_records_snoc, scan_app, scan_single.
  rewrite (absorb_pairs_get (fst r) w _ (scan w rs)).
  - rewrite (IH Hnd' w).
    destruct (positions_of w (snd r)) as [|q qs].
    + now rewrite app_nil_r.
    + destruct (scan w rs); reflexivity.
  - unfold postings_at. rewrite (IH Hnd' w). destruct (scan w rs); reflexivity.
  - apply (get_None String.eqb String.eqb_eq). intros H. apply Hnin.
    eapply scan_keys; eauto.
Qed.

Lemma add_posting_NoDup (inv : inverted) (doc : string) (w p : Z) :
  NoDup (keys inv) -> NoDup (keys (add_posting inv doc w p)).
Proof. unfold add_posting. apply (NoDup_keys_update Z.eqb Z.eqb_eq). Qed.

Lemma absorb_records_NoDup (rs : list record) : forall inv,
  NoDup (keys inv) -> NoDup (keys (absorb_records rs inv)).
Proof.
  unfold absorb_records.
  induction rs as [|[doc pairs] rs IH]; intros inv Hnd; simpl; [assumption|].
  apply IH. clear IH. revert inv Hnd. unfold absorb_pairs.
  induction pairs as [|[w p] pairs IHp]; intros inv Hnd; simpl; [assumption|].
  apply IHp. now apply add_posting_NoDup.
Qed.

(** ** Barrels *)

Lemma get2_place (itw : list (Z * string)) (acc : list (string * barrel))
  (w : Z) (docs : postings) (n k : string) :
  get2 (place itw acc (w, docs)) n k
  = match get Z.eqb w itw with
    | Some word =>
        if String.eqb (_get_barrel_name word) n && String.eqb (str w) k
        then Some docs else get2 acc n k
    | None => get2 acc n k
    end.
Proof.
  unfold place. destruct (get Z.eqb w itw) as [word|]; [|reflexivity].
  unfold get2.
  destruct (String.eqb_spec (_get_barrel_name word) n) as [<- | Hn]; cbn [andb].
  - rewrite (get_update_same String.eqb String.eqb_eq).
    rewrite (assign_update String.eqb).
    destruct (String.eqb_spec (str w) k) as [<- | Hk].
    + now rewrite (get_update_same String.eqb String.eqb_eq).
    + rewrite (get_update_other String.eqb String.eqb_eq) by congruence.
      destruct (get String.eqb (_get_barrel_name word) acc); reflexivity.
  - rewrite (get_update_other String.eqb String.eqb_eq) by congruence. reflexivity.
Qed.

Lemma distribute_other (itw : list (Z * string)) (inv : inverted) (w : Z) (n : string) :
  ~ In w (keys inv) ->
  forall acc, get2 (fold_left (place itw) inv acc) n (str w) = get2 acc n (str w).
Proof.
  induction inv as [|[w0 d0] inv IH]; intros Hnin acc; cbn [fold_left]; [reflexivity|].
  simpl in Hnin. rewrite IH by tauto. rewrite get2_place.
  destruct (get Z.eqb w0 itw) as [word|]; [|reflexivity].
  destruct (String.eqb_spec (str w0) (str w)) as [E | E].
  - apply str_inj in E. tauto.
  - now rewrite andb_false_r.
Qed.

Lemma distribute_lookup (itw : list (Z * string)) (inv : inverted)
  (w : Z) (word : string) (docs : postings) :
  NoDup (keys inv) -> In (w, docs) inv -> get Z.eqb w itw = Some word ->
  forall acc,
    get2 (fold_left (place itw) inv acc) (_get_barrel_name word) (str w) = Some docs.
Proof.
  intros Hnd Hin Hw.
  induction inv as [|[w0 d0] inv IH]; intros acc; [contradiction|].
  inversion Hnd as [|? ? Hnotin Hnd']; subst. cbn [fold_left].
  destruct Hin as [[= -> ->] | Hin].
  - rewrite distribute_other by assumption.
    rewrite get2_place, Hw. now rewrite !String.eqb_refl.
  - now apply IH.
Qed.

Lemma distribute_lookup_inv (itw : list (Z * string)) (inv : inverted)
  (n k : string) (docs : postings) :
  forall acc,
    get2 (fold_left (place itw) inv acc) n k = Some docs ->
    get2 acc n k = Some docs
    \/ exists w word, In (w, docs) inv /\ get Z.eqb w itw = Some word
                      /\ n = _get_barrel_name word /\ k = str w.
Proof.
  induction inv as [|[w0 d0] inv IH]; intros acc H; cbn [fold_left] in H; [now left|].
  destruct (IH _ H) as [H' | (w & word & Hin & Hw & Hn & Hk)].
  - rewrite get2_place in H'.
    destruct (get Z.eqb w0 itw) as [word|] eqn:Hw0; [|now left].
    destruct (String.eqb_spec (_get_barrel_name word) n) as [Hn | Hn];
      [|now left].
    destruct (String.eqb_spec (str w0) k) as [Hk | Hk]; [|now left].
    simpl in H'. injection H' as ->. right. exists w0, word.
    repeat split; auto. now left.
  - right. exists w, word. repeat split; auto. now right.
Qed.

Lemma place_NoDup (itw : list (Z * string)) (acc : list (string * barrel))
  (e : Z * postings) :
  NoDup (keys acc) -> NoDup (keys (place itw acc e)).
Proof.
  destruct e as [w docs]. unfold place.
  destruct (get Z.eqb w itw); [|auto].
  apply (NoDup_keys_update String.eqb String.eqb_eq).
Qed.

Lemma place_nonempty (itw : list (Z * string)) (acc : list (string * barrel))
  (e : Z * postings) :
  Forall (fun nb => snd nb <> []) acc ->
  Forall (fun nb => snd nb <> []) (place itw acc e).
Proof.
  destruct e as [w docs]. unfold place.
  destruct (get Z.eqb w itw); [|auto].
  apply (Forall_update String.eqb (fun b : barrel => b <> [])).
  intros b. destruct b as [|[k' v'] b]; simpl; [discriminate|].
  destruct (String.eqb k' (str w)); discriminate.
Qed.

Lemma distribute_invariants (itw : list (Z * string)) (inv : inverted) :
  NoDup (keys (distribute itw inv))
  /\ Forall (fun nb => snd nb <> []) (distribute itw inv).
Proof.
  unfold distribute.
  assert (H : forall acc,
             NoDup (keys acc) /\ Forall (fun nb : string * barrel => snd nb <> []) acc ->
             NoDup (keys (fold_left (place itw) inv acc))
             /\ Forall (fun nb => snd nb <> []) (fold_left (place itw) inv acc)).
  { induction inv as [|e inv IH]; intros acc [H1 H2]; simpl; [auto|].
    apply IH. split; [now apply place_NoDup | now apply place_nonempty]. }
  apply H. split; constructor.
Qed.

(** The second loop writes one file per barrel that is not empty. *)
Lemma save_from (barrels : list (string * barrel)) :
  forall (files : list (string * barrel)) (n : Z),
    fold_left save_step barrels (files, n)
    = (files ++ map (fun nb => (barrel_file (fst nb), snd nb)) (filter is_saved barrels),
       (n + Z.of_nat (List.length (filter is_saved barrels)))%Z).
Proof.
  induction barrels as [|[name b] barrels IH]; intros files n.
  - simpl. rewrite app_nil_r. f_equal. lia.
  - destruct b as [|kd b]; cbn [fold_left save_step filter is_saved snd].
    + apply IH.
    + rewrite IH, <- app_assoc. cbn [map List.length fst snd app]. f_equal. lia.
Qed.

Lemma filter_is_saved (barrels : list (string * barrel)) :
  Forall (fun nb => snd nb <> []) barrels -> filter is_saved barrels = barrels.
Proof.
  induction 1 as [|[name b] barrels Hb H IH]; simpl; [reflexivity|].
  destruct b; [now contradiction Hb|]. unfold is_saved at 1. simpl. now rewrite IH.
Qed.

Lemma save_nonempty (barrels : list (string * barrel)) :
  Forall (fun nb => snd nb <> []) barrels ->
  save barrels
  = (map (fun nb => (barrel_file (fst nb), snd nb)) barrels,
     Z.of_nat (List.length barrels)).
Proof.
  intros H. unfold save. rewrite save_from, (filter_is_saved barrels H). reflexivity.
Qed.

Lemma append_inj_l (p a b : string) : (p ++ a)%string = (p ++ b)%string -> a = b.
Proof. induction p as [|c p IH]; simpl; [auto|]. intros [= H]. auto. Qed.

Lemma string_length_append (a b : string) :
  String.length (a ++ b) = String.length a + String.length b.
Proof. induction a as [|c a IH]; simpl; [reflexivity | now rewrite IH]. Qed.

Lemma append_inj_r (s a b : string) : (a ++ s)%string = (b ++ s)%string -> a = b.
Proof.
  revert b. induction a as [|c a IH]; intros [|d b] H; simpl in H.
  - reflexivity.
  - apply (f_equal String.length) in H. simpl in H.
    rewrite string_length_append in H. lia.
  - apply (f_equal String.length) in H. simpl in H.
    rewrite string_length_append in H. lia.
  - injection H as -> H. f_equal. now apply IH.
Qed.

Lemma barrel_file_inj (a b : string) : barrel_file a = barrel_file b -> a = b.
Proof.
  unfold barrel_file. intros H. apply append_inj_l in H. now apply append_inj_r in H.
Qed.

Lemma get_barrel_file (n : string) (barrels : list (string * barrel)) :
  get String.eqb (barrel_file n) (map (fun nb => (barrel_file (fst nb), snd nb)) barrels)
  = get String.eqb n barrels.
Proof.
  induction barrels as [|[n0 b] barrels IH]; cbn [get map fst snd]; [reflexivity|].
  destruct (String.eqb_spec n0 n) as [-> | Hne].
  - now rewrite String.eqb_refl.
  - destruct (String.eqb_spec (barrel_file n0) (barrel_file n)) as [E | E]; [|exact IH].
    apply barrel_file_inj in E. contradiction.
Qed.


(** The files of a run over a directory given by its records. *)
Lemma files_of_run (lex : list (string * Z)) (size : positive)
  (entries : list (string * option record)) :
  _get_forward_index_files (dir_of entries) <> [] ->
  snd (build_inverted_index (init lex size) (dir_of entries))
  = map (fun nb => (barrel_file (fst nb), snd nb))
      (distribute (id_to_word (init lex size)) (absorb_records (records_in entries) [])).
Proof.
  intros Hne. rewrite build_inverted_index_eq.
  destruct (_get_forward_index_files (dir_of entries)) eqn:E; [congruence|].
  rewrite <- E. cbv zeta. cbn [snd].
  rewrite index_of_dir. cbn [inverted_index init].
  rewrite save_nonempty by apply distribute_invariants. reflexivity.
Qed.

Lemma no_files_no_records (entries : list (string * option record)) :
  _get_forward_index_files (dir_of entries) = [] -> records_in entries = [].
Proof.
  unfold _get_forward_index_files, dir_of, records_in.
  induction entries as [|[name r] entries IH]; simpl; [reflexivity|].
  destruct (String.eqb name stats_name); simpl; [exact IH | discriminate].
Qed.

Lemma contains_of_pairs (lex : list (string * Z)) (w : Z) :
  contains Z.eqb w (of_pairs Z.eqb (map (fun e => (snd e, fst e)) lex))
  = resolves lex w.
Proof.
  unfold of_pairs, resolves.
  assert (H : forall d : list (Z * string),
             contains Z.eqb w
               (fold_left (fun d kv => assign Z.eqb (fst kv) (snd kv) d)
                  (map (fun e : string * Z => (snd e, fst e)) lex) d)
             = (contains Z.eqb w d || existsb (fun e => Z.eqb (snd e) w) lex)%bool).
  { induction lex as [|[word id] lex IH]; intros d; simpl.
    - now rewrite orb_false_r.
    - rewrite IH. unfold contains.
      rewrite (assign_update Z.eqb).
      destruct (Z.eqb_spec id w) as [-> | Hne].
      + rewrite (get_update_same Z.eqb Z.eqb_eq). simpl.
        now rewrite orb_true_r.
      + rewrite (get_update_other Z.eqb Z.eqb_eq) by congruence. reflexivity. }
  rewrite H. reflexivity.
Qed.

(** With one record per document, for every word id [w] that occurs in
    some forward index record and has a word in the lexicon, the postings
    found in the barrel file of that word under the key [str(w)] are the
    (document, positions) pairs of the scan of all records for [w]. *)
Lemma resolved_round_trip :
  forall (lex : list (string * Z)) (size : positive)
         (entries : list (string * option record)) (w : Z),
    resolves lex w = true ->
    NoDup (map fst (records_in entries)) ->
    (exists r p, In r (records_in entries) /\ In (w, p) (snd r)) ->
    recover lex (snd (build_inverted_index (init lex size) (dir_of entries))) w
    = Some (scan w (records_in entries)).
Proof.
  intros lex size entries w Hres Hnd (r & p & Hr & Hp).
  set (rs := records_in entries) in *.
  assert (Hscan : scan w rs <> []).
  { assert (Hin : In (fst r, positions_of w (snd r)) (scan w rs)).
    { apply scan_In. exists (snd r). destruct r as [doc pairs]. simpl in *.
      repeat split; auto. unfold positions_of. intros E.
      apply map_eq_nil in E.
      assert (Hf : In (w, p) (filter (fun wp => Z.eqb (fst wp) w) pairs)).
      { apply filter_In. split; [assumption | apply Z.eqb_refl]. }
      rewrite E in Hf. contradiction. }
    intros E. rewrite E in Hin. contradiction. }
  assert (Hfiles : _get_forward_index_files (dir_of entries) <> []).
  { intros E. apply no_files_no_records in E. fold rs in E.
    rewrite E in Hr. contradiction. }
  rewrite (files_of_run lex size entries Hfiles). fold rs.
  unfold recover. cbn [id_to_word init].
  set (itw := of_pairs Z.eqb (map (fun e => (snd e, fst e)) lex)).
  destruct (get Z.eqb w itw) as [word|] eqn:Hw.
  - rewrite get_barrel_file.
    pose proof (distribute_lookup itw (absorb_records rs []) w word (scan w rs)) as H.
    unfold get2, distribute in *. apply H; auto.
    + apply absorb_records_NoDup. constructor.
    + apply (get_Some_In Z.eqb Z.eqb_eq).
      rewrite (absorb_records_get rs Hnd w).
      destruct (scan w rs); [congruence | reflexivity].
  - exfalso. rewrite <- contains_of_pairs in Hres. fold itw in Hres.
    unfold contains in Hres. rewrite Hw in Hres. discriminate.
Qed.

(** A word id without a word in the lexicon is a key of no barrel file. *)
Lemma stale_id_absent (lex : list (string * Z)) (size : positive)
  (entries : list (string * option record)) (w : Z) :
  resolves lex w = false ->
  forall file b,
    In (file, b) (snd (build_inverted_index (init lex size) (dir_of entries))) ->
    get String.eqb (str w) b = None.
Proof.
  intros Hres file b Hin.
  destruct (_get_forward_index_files (dir_of entries)) as [|f fs] eqn:E.
  { rewrite build_inverted_index_eq, E in Hin. contradiction. }
  rewrite files_of_run in Hin by congruence.
  set (itw := id_to_word (init lex size)) in *.
  set (inv := absorb_records (records_in entries) []) in *.
  apply in_map_iff in Hin as ([n b0] & [= <- <-] & Hin). cbn [snd].
  destruct (get String.eqb (str w) b0) as [docs|] eqn:Hkey; [|reflexivity].
  exfalso.
  destruct (distribute_invariants itw inv) as [Hnd _].
  assert (H2 : get2 (distribute itw inv) n (str w) = Some docs).
  { unfold get2.
    now rewrite (In_get_Some String.eqb String.eqb_eq n b0 _ Hnd Hin). }
  apply distribute_lookup_inv in H2 as [H2 | (w' & word & _ & Hw & _ & Hs)];
    [discriminate|].
  apply str_inj in Hs. subst w'.
  rewrite <- contains_of_pairs in Hres. unfold contains in Hres.
  unfold itw in Hw. cbn [id_to_word init] in Hw. rewrite Hw in Hres. discriminate.
Qed.

(** C1, as the code has it.  With one record per document, for every word
    id [w]: when [w] has a word in the lexicon and occurs in some forward
    index record, the postings found in the barrel file of that word under
    the key [str(w)] are the (document, positions) pairs of the scan of all
    records for [w], each document once, its positions in the order of its
    record; when [w] has no word in the lexicon, no barrel file holds a key
    for it and nothing is recovered. *)
Theorem C1_inversion_round_trip :
  forall (lex : list (string * Z)) (size : positive)
         (entries : list (string * option record)),
    NoDup (map fst (records_in entries)) ->
    forall w : Z,
      let files := snd (build_inverted_index (init lex size) (dir_of entries)) in
      (resolves lex w = true ->
       (exists r p, In r (records_in entries) /\ In (w, p) (snd r)) ->
       recover lex files w = Some (scan w (records_in entries)))
      /\ (resolves lex w = false ->
          recover lex files w = None
          /\ forall file b, In (file, b) files -> get String.eqb (str w) b = None).
Proof.
  intros lex size entries Hnd w files. subst files. split.
  - intros Hres Hocc. now apply resolved_round_trip.
  - intros Hres. split.
    + unfold recover. rewrite <- contains_of_pairs in Hres. unfold contains in Hres.
      destruct (get Z.eqb w (of_pairs Z.eqb (map (fun e => (snd e, fst e)) lex)));
        [discriminate | reflexivity].
    + now apply stale_id_absent.
Qed.

Lemma C1_witness_two_documents :
  let lex := [("nebula", 2%Z); ("star", 1%Z)] in
  let entries := [("d1.json", Some ("d1", [(1, 0); (1, 1); (7, 2)]%Z));
                  ("bad.json", None);
                  ("d2.json", Some ("d2", [(2, 0); (1, 1)]%Z))] in
  let files := snd (build_inverted_index (init lex 100) (dir_of entries)) in
  recover lex files 1%Z = Some [("d1", [0; 1]%Z); ("d2", [1%Z])]
  /\ recover lex files 7%Z = None.
Proof.
  cbv zeta.
  assert (Hnd : NoDup (map fst (records_in
                                  [("d1.json", Some ("d1", [(1, 0); (1, 1); (7, 2)]%Z));
                                   ("bad.json", None);
                                   ("d2.json", Some ("d2", [(2, 0); (1, 1)]%Z))]))).
  { simpl. constructor; [simpl; intros [H | []]; discriminate|].
    constructor; [simpl; tauto | constructor]. }
  split.
  - apply (C1_inversion_round_trip [("nebula", 2%Z); ("star", 1%Z)] 100 _ Hnd 1%Z).
    + reflexivity.
    + exists ("d1", [(1, 0); (1, 1); (7, 2)]%Z), 0%Z. simpl. auto.
  - apply (C1_inversion_round_trip [("nebula", 2%Z); ("star", 1%Z)] 100 _ Hnd 7%Z).
    reflexivity.
Defined.

(** C1 as stated fails for a word id without a word in the lexicon: the id
    7 occurs in the record of document d, the scan finds its position, and no
    barrel file holds a key for it. *)
Lemma C1_counterexample_stale_word_id :
  let lex := [("star", 1%Z)] in
  let entries := [("d.json", Some ("d", [(7, 0); (1, 1)]%Z))] in
  let files := snd (build_inverted_index (init lex 100) (dir_of entries)) in
  In (7, 0)%Z (snd ("d", [(7, 0); (1, 1)]%Z))
  /\ scan 7 (records_in entries) = [("d", [0%Z])]
  /\ recover lex files 7 <> Some (scan 7 (records_in entries))
  /\ forall f, In f files -> get String.eqb (str 7) (snd f) = None.
Proof.
  cbv zeta. split; [simpl; auto|]. split; [reflexivity|]. split.
  - vm_compute. discriminate.
  - vm_compute. intros f [<- | []]. reflexivity.
Qed.

(** ** Counting position entries *)

Lemma postings_size_app (d1 d2 : postings) :
  postings_size (d1 ++ d2) = postings_size d1 + postings_size d2.
Proof. unfold postings_size. now rewrite map_app, list_sum_app. Qed.

Lemma barrel_size_app (b1 b2 : barrel) :
  barrel_size (b1 ++ b2) = barrel_size b1 + barrel_size b2.
Proof. unfold barrel_size. now rewrite map_app, list_sum_app. Qed.

Lemma postings_size_cons (d : string) (ps : list Z) (docs : postings) :
  postings_size ((d, ps) :: docs) = List.length ps + postings_size docs.
Proof. reflexivity. Qed.

Lemma postings_size_append (doc : string) (p : Z) (docs : postings) :
  postings_size (update String.eqb doc (fun ps => ps ++ [p]) [] docs)
  = postings_size docs + 1.
Proof.
  induction docs as [|[d ps] docs IH].
  - reflexivity.
  - cbn [update]. destruct (String.eqb d doc).
    + rewrite !postings_size_cons, length_app. simpl. lia.
    + rewrite !postings_size_cons, IH. lia.
Qed.

Lemma resolved_size_cons (itw : list (Z * string)) (w : Z) (docs : postings)
  (inv : inverted) :
  resolved_size itw ((w, docs) :: inv)
  = (if contains Z.eqb w itw then postings_size docs else 0) + resolved_size itw inv.
Proof. reflexivity. Qed.

Lemma resolved_size_add_posting (itw : list (Z * string)) (inv : inverted)
  (doc : string) (w p : Z) :
  resolved_size itw (add_posting inv doc w p)
  = resolved_size itw inv + (if contains Z.eqb w itw then 1 else 0).
Proof.
  unfold add_posting.
  induction inv as [|[w0 d0] inv IH].
  - cbn [update]. rewrite resolved_size_cons.
    destruct (contains Z.eqb w itw); reflexivity.
  - cbn [update]. destruct (Z.eqb_spec w0 w) as [-> | Hne].
    + rewrite !resolved_size_cons, postings_size_append.
      destruct (contains Z.eqb w itw); lia.
    + rewrite !resolved_size_cons, IH. lia.
Qed.

Lemma resolved_size_absorb_pairs (itw : list (Z * string)) (doc : string)
  (pairs : list (Z * Z)) : forall inv,
  resolved_size itw (absorb_pairs doc pairs inv)
  = resolved_size itw inv
    + List.length (filter (fun wp => contains Z.eqb (fst wp) itw) pairs).
Proof.
  unfold absorb_pairs.
  induction pairs as [|[w p] pairs IH]; intros inv; cbn [fold_left filter fst snd].
  - simpl. lia.
  - rewrite IH, resolved_size_add_posting.
    destruct (contains Z.eqb w itw); simpl; lia.
Qed.

Lemma resolved_size_absorb_records (itw : list (Z * string)) (rs : list record) :
  forall inv,
    resolved_size itw (absorb_records rs inv)
    = resolved_size itw inv
      + list_sum (map (fun r => List.length
                                  (filter (fun wp => contains Z.eqb (fst wp) itw) (snd r)))
                      rs).
Proof.
  unfold absorb_records.
  induction rs as [|r rs IH]; intros inv.
  - simpl. lia.
  - cbn [fold_left map]. rewrite IH, resolved_size_absorb_pairs. simpl. lia.
Qed.

Lemma barrels_size_cons (n : string) (b : barrel) (acc : list (string * barrel)) :
  barrels_size ((n, b) :: acc) = barrel_size b + barrels_size acc.
Proof. reflexivity. Qed.

Lemma barrels_size_place_fresh (name key : string) (docs : postings)
  (acc : list (string * barrel)) :
  get2 acc name key = None ->
  barrels_size (update String.eqb name (assign String.eqb key docs) [] acc)
  = barrels_size acc + postings_size docs.
Proof.
  unfold get2.
  induction acc as [|[n0 b0] acc IH]; intros Hfresh.
  - cbn [update assign]. rewrite barrels_size_cons.
    unfold barrel_size, barrels_size. simpl. lia.
  - cbn [update get] in *. destruct (String.eqb n0 name).
    + rewrite !barrels_size_cons.
      rewrite (assign_fresh String.eqb _ _ _ Hfresh), barrel_size_app.
      unfold barrel_size at 2. simpl. lia.
    + rewrite !barrels_size_cons, (IH Hfresh). lia.
Qed.

Lemma barrels_size_distribute (itw : list (Z * string)) (inv : inverted) :
  NoDup (keys inv) ->
  forall acc,
    (forall w, In w (keys inv) -> forall n, get2 acc n (str w) = None) ->
    barrels_size (fold_left (place itw) inv acc)
    = barrels_size acc + resolved_size itw inv.
Proof.
  induction inv as [|[w0 d0] inv IH]; intros Hnd acc Hfresh.
  - unfold resolved_size. simpl. lia.
  - inversion Hnd as [|? ? Hnotin Hnd']; subst. cbn [fold_left].
    rewrite (IH Hnd').
    + rewrite resolved_size_cons.
      unfold place, contains.
      destruct (get Z.eqb w0 itw) as [word|]; [|lia].
      rewrite barrels_size_place_fresh; [lia|].
      apply Hfresh. now left.
    + intros w Hw n. rewrite get2_place.
      destruct (get Z.eqb w0 itw) as [word|]; [|apply Hfresh; now right].
      destruct (String.eqb_spec (str w0) (str w)) as [E | E].
      * apply str_inj in E. subst w0. contradiction.
      * rewrite andb_false_r. apply Hfresh. now right.
Qed.

Lemma position_entries_files (barrels : list (string * barrel)) :
  position_entries (map (fun nb => (barrel_file (fst nb), snd nb)) barrels)
  = barrels_size barrels.
Proof. unfold position_entries, barrels_size. now rewrite map_map. Qed.

(** C6. The position entries of all barrel files together are as many as
    the (word_id, position) pairs of all forward index records whose word id
    has an entry in the lexicon. *)
Theorem C6_count_conservation :
  forall (lex : list (string * Z)) (size : positive)
         (entries : list (string * option record)),
    position_entries (snd (build_inverted_index (init lex size) (dir_of entries)))
    = resolved_pairs lex (records_in entries).
Proof.
  intros lex size entries.
  destruct (_get_forward_index_files (dir_of entries)) as [|f fs] eqn:E.
  - rewrite build_inverted_index_eq, E.
    now rewrite (no_files_no_records entries E).
  - rewrite files_of_run by congruence.
    rewrite position_entries_files. unfold distribute.
    rewrite barrels_size_distribute.
    + rewrite resolved_size_absorb_records. unfold resolved_pairs.
      cbn [id_to_word init]. simpl. f_equal.
      apply map_ext. intros r. f_equal. apply filter_ext.
      intros wp. apply contains_of_pairs.
    + apply absorb_records_NoDup. constructor.
    + reflexivity.
Qed.

(** ** Running twice, and in another order *)










End BackwardProofs.

(* ================================================================== *)
(** * Further properties of the lexicon builder *)
(* ================================================================== *)

Module LexiconExtras.
Import Py Lexicon PyFacts LexiconProofs.

Lemma lower_char_never_upper (c : ascii) : is_upper (lower_char c) = false.
Proof. destruct c as [[] [] [] [] [] [] [] []]; reflexivity. Qed.

Lemma lower_char_idempotent (c : ascii) : lower_char (lower_char c) = lower_char c.
Proof.
  unfold lower_char at 1. now rewrite lower_char_never_upper.
Qed.

Lemma lower_idempotent (s : string) : lower (lower s) = lower s.
Proof.
  induction s as [|c s IH]; simpl; [reflexivity|].
  now rewrite lower_char_idempotent, IH.
Qed.

Lemma lower_no_upper (s : string) :
  all_chars (fun c => negb (is_upper c)) (lower s) = true.
Proof.
  induction s as [|c s IH]; simpl; [reflexivity|].
  now rewrite lower_char_never_upper, IH.
Qed.

Lemma letters_not_upper_lower (s : string) :
  all_chars is_letter s = true ->
  all_chars (fun c => negb (is_upper c)) s = true ->
  all_chars is_lower s = true.
Proof.
  induction s as [|c s IH]; simpl; [reflexivity|].
  rewrite !andb_true_iff. intros [Hc Hs] [Hu Hs']. split; [|auto].
  unfold is_letter in Hc. destruct (is_upper c); [discriminate | exact Hc].
Qed.

(** What [_is_valid_word] accepts is, lowercased, a normalized word. *)
Lemma valid_word_normalized (english_words : list string) (w : string) :
  _is_valid_word english_words w = true -> normalized (lower w).
Proof.
  unfold _is_valid_word, normalized.
  destruct (Nat.leb 2 (String.length (lower w))
            && Nat.leb (String.length (lower w)) 30) eqn:Hlen; [|discriminate].
  destruct (isalpha (lower w)) eqn:Halpha; [|discriminate].
  intros _. apply andb_true_iff in Hlen as [H2 H30].
  apply Nat.leb_le in H2, H30. split; [|lia].
  apply letters_not_upper_lower; [|apply lower_no_upper].
  unfold isalpha in Halpha. destruct (lower w); [discriminate | exact Halpha].
Qed.

Lemma accepted_normalized (english_words : list string) (txt_files : list txt_file)
  (w : string) :
  accepted english_words txt_files w -> normalized w.
Proof.
  intros (f & content & token & _ & _ & _ & Hw & Hvalid).
  apply valid_word_normalized in Hvalid.
  subst w. now rewrite lower_idempotent in Hvalid.
Qed.

Lemma written_lexicon (english_words : list string) (size : positive)
  (st : stats) (dir : list txt_file) (lex : lexicon) :
  In ("lexicon.json", LexiconJson lex) (snd (build english_words size st dir)) ->
  _get_txt_files dir <> []
  /\ lex = make_lexicon (collect english_words size (_get_txt_files dir)).
Proof.
  unfold build. destruct (_get_txt_files dir) as [|f fs]; simpl; [tauto|].
  intros [H | [H | []]]; [|discriminate]. injection H as <-.
  split; [discriminate | reflexivity].
Qed.

Lemma written_lexicon_words (english_words : list string) (size : positive)
  (st : stats) (dir : list txt_file) (lex : lexicon) :
  In ("lexicon.json", LexiconJson lex) (snd (build english_words size st dir)) ->
  forall w, In w (map fst lex) <-> accepted english_words (_get_txt_files dir) w.
Proof.
  intros H w. apply written_lexicon in H as [_ ->].
  rewrite (make_lexicon_eq _ (collect_NoDup english_words size (_get_txt_files dir))).
  rewrite enumerate_words, sorted_In. apply collect_In.
Qed.

(** X1. Every word of a lexicon that [build] writes consists of lowercase
    letters only and is 2 to 30 characters long. *)
Theorem X1_lexicon_words_are_normalized :
  forall (english_words : list string) (size : positive) (st : stats)
         (dir : list txt_file) (lex : lexicon) (w : string) (id : Z),
    In ("lexicon.json", LexiconJson lex) (snd (build english_words size st dir)) ->
    In (w, id) lex ->
    normalized w.
Proof.
  intros english size st dir lex w id Hlex Hin.
  apply (accepted_normalized english (_get_txt_files dir)).
  apply (written_lexicon_words english size st dir lex Hlex).
  apply in_map_iff. exists (w, id). auto.
Qed.

Lemma X1_witness_mixed_case :
  normalized "comet".
Proof.
  apply (X1_lexicon_words_are_normalized ["star"] 200
           {| total_files := 0; unique_words := 0 |}
           [{| stem := "a"; text := Some "star nebula x1 q" |};
            {| stem := "b"; text := Some "Comet STAR" |}]
           [("comet", 1%Z); ("nebula", 2%Z); ("star", 3%Z)] "comet" 1%Z).
  - vm_compute. left. reflexivity.
  - simpl. auto.
Defined.

(** ** Files that cannot be read *)

Lemma set_update_nil (s : list string) : set_update s [] = s.
Proof. reflexivity. Qed.

Lemma collect_unreadable (english_words : list string) (size : positive)
  (pre post : list txt_file) (f : txt_file) :
  text f = None ->
  collect english_words size (pre ++ f :: post)
  = collect english_words size (pre ++ post).
Proof.
  intros Hf.
  assert (E : _process_file english_words f = [])
    by (unfold _process_file; now rewrite Hf).
  rewrite !collect_eq, !fold_left_app. cbn [fold_left].
  rewrite E. reflexivity.
Qed.

Lemma _get_txt_files_app (l1 l2 : list txt_file) :
  _get_txt_files (l1 ++ l2) = _get_txt_files l1 ++ _get_txt_files l2.
Proof. unfold _get_txt_files. apply filter_app. Qed.

(** X2. A text file that cannot be read does not abort [build] and leaves
    no trace in the lexicon: the lexicon written is the one of the corpus
    without the file.  The file is still counted in [total_files]. *)
Theorem X2_unreadable_file_is_skipped :
  forall (english_words : list string) (size : positive) (st : stats)
         (pre post : list txt_file) (f : txt_file),
    text f = None ->
    set_contains (name f) exclude = false ->
    let run := build english_words size st (pre ++ f :: post) in
    snd run
    = [("lexicon.json",
        LexiconJson (make_lexicon
                       (collect english_words size (_get_txt_files (pre ++ post)))));
       ("lexicon_stats.json", StatsJson (fst run))]
    /\ total_files (fst run)
       = (Z.of_nat (List.length (_get_txt_files (pre ++ post))) + 1)%Z.
Proof.
  intros english size st pre post f Hf Hname run. subst run.
  unfold build. rewrite !_get_txt_files_app.
  assert (E : _get_txt_files (f :: post) = f :: _get_txt_files post).
  { unfold _get_txt_files. cbn [filter]. now rewrite Hname. }
  rewrite E.
  destruct (_get_txt_files pre ++ f :: _get_txt_files post) as [|x l] eqn:El.
  { destruct (_get_txt_files pre); discriminate. }
  rewrite <- El. clear El x l. cbv zeta. cbn [fst snd total_files].
  rewrite (collect_unreadable english size _ _ f Hf). split; [reflexivity|].
  rewrite !length_app. cbn [List.length]. lia.
Qed.

Lemma X2_witness_unreadable_between :
  snd (build ["star"] 200 {| total_files := 0; unique_words := 0 |}
         ([{| stem := "a"; text := Some "star nebula" |}]
          ++ {| stem := "broken"; text := None |}
          :: [{| stem := "b"; text := Some "Comet" |}]))
  = [("lexicon.json", LexiconJson [("comet", 1%Z); ("nebula", 2%Z); ("star", 3%Z)]);
     ("lexicon_stats.json", StatsJson {| total_files := 3; unique_words := 3 |})].
Proof.
  apply (X2_unreadable_file_is_skipped ["star"] 200
           {| total_files := 0; unique_words := 0 |}
           [{| stem := "a"; text := Some "star nebula" |}]
           [{| stem := "b"; text := Some "Comet" |}]
           {| stem := "broken"; text := None |}); reflexivity.
Defined.

Lemma collect_all_unreadable (english_words : list string) (size : positive)
  (txt_files : list txt_file) :
  (forall f, In f txt_files -> text f = None) ->
  collect english_words size txt_files = [].
Proof.
  intros H. rewrite collect_eq.
  induction txt_files as [|f fs IH]; [reflexivity|].
  assert (E : _process_file english_words f = []).
  { unfold _process_file. now rewrite (H f (or_introl eq_refl)). }
  cbn [fold_left]. rewrite E. apply IH.
  intros g Hg. apply H. now right.
Qed.

(** X3. A corpus that has text files none of which can be read is not the
    empty corpus: [build] runs to its end and writes a lexicon without any
    word, and statistics with [unique_words] 0. *)
Theorem X3_unreadable_corpus_writes_empty_lexicon :
  forall (english_words : list string) (size : positive) (st : stats)
         (dir : list txt_file),
    _get_txt_files dir <> [] ->
    (forall f, In f (_get_txt_files dir) -> text f = None) ->
    build english_words size st dir
    = ({| total_files := Z.of_nat (List.length (_get_txt_files dir));
          unique_words := 0 |},
       [("lexicon.json", LexiconJson []);
        ("lexicon_stats.json",
         StatsJson {| total_files := Z.of_nat (List.length (_get_txt_files dir));
                      unique_words := 0 |})]).
Proof.
  intros english size st dir Hne Hall. unfold build.
  destruct (_get_txt_files dir) as [|f fs] eqn:E; [congruence|].
  rewrite <- E in *. cbv zeta.
  rewrite (collect_all_unreadable english size _ Hall). reflexivity.
Qed.

Lemma X3_witness_one_unreadable_file :
  build ["star"] 200 {| total_files := 0; unique_words := 0 |}
    [{| stem := "broken"; text := None |}]
  = ({| total_files := 1; unique_words := 0 |},
     [("lexicon.json", LexiconJson []);
      ("lexicon_stats.json", StatsJson {| total_files := 1; unique_words := 0 |})]).
Proof.
  apply (X3_unreadable_corpus_writes_empty_lexicon ["star"] 200
           {| total_files := 0; unique_words := 0 |}
           [{| stem := "broken"; text := None |}]).
  - discriminate.
  - intros f [<- | []]. reflexivity.
Defined.

(** ** Short words *)

(** X4. Every word of two lowercase letters is valid, in the dictionary or
    not: none of the four tests of [_is_gibberish] can fire on two
    characters. *)
Theorem X4_two_letter_words_are_valid :
  forall (english_words : list string) (w : string),
    all_chars is_lower w = true ->
    String.length w = 2 ->
    _is_valid_word english_words w = true.
Proof.
  intros english w Hlow Hlen.
  unfold _is_valid_word. rewrite (lower_lowercase w Hlow).
  assert (Halpha : isalpha w = true).
  { destruct w; [discriminate | now apply all_lower_letters]. }
  rewrite Hlen, Halpha. cbn [Nat.leb andb negb orb].
  destruct (negb (Nat.eqb (List.length english) 0) && set_contains w english);
    [reflexivity|].
  destruct w as [|a [|b [|c r]]]; try discriminate.
  unfold _is_gibberish, is_consonant. cbn [streak_max].
  destruct (is_vowel a), (is_vowel b); reflexivity.
Qed.

Lemma X4_witness_zq : _is_valid_word ["star"] "zq" = true.
Proof.
  apply (X4_two_letter_words_are_valid ["star"] "zq"); reflexivity.
Defined.

End LexiconExtras.

(* ================================================================== *)
(** * Further properties of the forward index builder *)
(* ================================================================== *)

Module ForwardExtras.
Import Py Forward PyFacts.

Lemma enumerate_app {A : Type} (l1 l2 : list A) : forall start,
  enumerate start (l1 ++ l2)
  = enumerate start l1 ++ enumerate (start + Z.of_nat (List.length l1))%Z l2.
Proof.
  induction l1 as [|x l1 IH]; intros start.
  - simpl. now rewrite Z.add_0_r.
  - simpl. rewrite IH. do 3 f_equal. lia.
Qed.

Lemma index_words_snoc (lex : list (string * Z)) (words : list string) (w : string) :
  index_words lex (words ++ [w])
  = index_step lex (index_words lex words) (Z.of_nat (List.length words), w).
Proof.
  unfold index_words. rewrite enumerate_app, fold_left_app. reflexivity.
Qed.

(** X5. Every token of a document is either entered in the forward index
    or counted in [words_skipped]: the two numbers add up to the number of
    tokens. *)
Theorem X5_tokens_indexed_or_skipped :
  forall (lex : list (string * Z)) (words : list string),
    (Z.of_nat (List.length (fst (index_words lex words)))
     + snd (index_words lex words))%Z
    = Z.of_nat (List.length words)
    /\ (0 <= snd (index_words lex words))%Z.
Proof.
  intros lex words. induction words as [|w words IH] using rev_ind.
  - split; [reflexivity | simpl; lia].
  - rewrite index_words_snoc. destruct (index_words lex words) as [fi sk].
    cbn [fst snd] in IH. unfold index_step.
    destruct (get String.eqb (lower w) lex) as [id|]; cbn [fst snd];
      rewrite !length_app; cbn [List.length]; lia.
Qed.

Lemma nth_error_snoc {A : Type} (l : list A) (x : A) (i : nat) (y : A) :
  nth_error (l ++ [x]) i = Some y
  <-> nth_error l i = Some y \/ (i = List.length l /\ y = x).
Proof.
  destruct (Nat.lt_ge_cases i (List.length l)) as [Hlt | Hge].
  - rewrite nth_error_app1 by assumption. split; [auto|].
    intros [H | [-> _]]; [assumption | lia].
  - rewrite nth_error_app2 by assumption. split.
    + destruct (i - List.length l) as [|k] eqn:E; simpl.
      * intros [= <-]. right. split; [lia | reflexivity].
      * destruct k; discriminate.
    + intros [H | [-> ->]].
      * apply nth_error_None in Hge. congruence.
      * now rewrite Nat.sub_diag.
Qed.

Lemma index_words_In (lex : list (string * Z)) (words : list string) (id p : Z) :
  In (id, p) (fst (index_words lex words))
  <-> exists i w, nth_error words i = Some w /\ p = Z.of_nat i
                  /\ get String.eqb (lower w) lex = Some id.
Proof.
  induction words as [|w words IH] using rev_ind.
  - simpl. split; [tauto|]. intros (i & w & H & _). destruct i; discriminate.
  - rewrite index_words_snoc. destruct (index_words lex words) as [fi sk].
    cbn [fst] in IH. unfold index_step.
    destruct (get String.eqb (lower w) lex) as [id'|] eqn:Hw; cbn [fst].
    + rewrite in_app_iff, IH. split.
      * intros [(i & w' & Hn & Hp & Hg) | [[= <- <-] | []]].
        -- exists i, w'. rewrite nth_error_snoc. auto.
        -- exists (List.length words), w. rewrite nth_error_snoc. auto.
      * intros (i & w' & Hn & Hp & Hg). apply nth_error_snoc in Hn as [Hn | [-> ->]].
        -- left. exists i, w'. auto.
        -- right. left. congruence.
    + rewrite IH. split.
      * intros (i & w' & Hn & Hp & Hg). exists i, w'. rewrite nth_error_snoc. auto.
      * intros (i & w' & Hn & Hp & Hg). apply nth_error_snoc in Hn as [Hn | [-> ->]].
        -- exists i, w'. auto.
        -- congruence.
Qed.

Lemma StronglySorted_snoc {A : Type} (R : A -> A -> Prop) (l : list A) (x : A) :
  StronglySorted R l -> Forall (fun y => R y x) l -> StronglySorted R (l ++ [x]).
Proof.
  induction 1 as [|a l Hs IH Ha]; intros Hx; simpl.
  - repeat constructor.
  - inversion Hx; subst. constructor; [auto|].
    apply Forall_app. split; [assumption | repeat constructor; assumption].
Qed.

(** X6. The forward index of a document holds the pair (id, p) exactly when
    the token at the 0-based position p, lowercased, has the id in the
    lexicon; the pairs come in strictly increasing order of position, not of
    word id. *)
Theorem X6_forward_index_pairs :
  forall (lex : list (string * Z)) (words : list string),
    (forall id p,
        In (id, p) (fst (index_words lex words))
        <-> exists i w, nth_error words i = Some w /\ p = Z.of_nat i
                        /\ get String.eqb (lower w) lex = Some id)
    /\ StronglySorted Z.lt (map snd (fst (index_words lex words))).
Proof.
  intros lex words. split; [intros id p; apply index_words_In|].
  induction words as [|w words IH] using rev_ind; [constructor|].
  pose proof (fun id p => proj1 (index_words_In lex words id p)) as Hin.
  rewrite index_words_snoc. destruct (index_words lex words) as [fi sk].
  cbn [fst] in *. unfold index_step.
  destruct (get String.eqb (lower w) lex) as [id'|]; cbn [fst]; [|exact IH].
  rewrite map_app. cbn [map snd]. apply StronglySorted_snoc; [exact IH|].
  apply Forall_forall. intros q Hq. apply in_map_iff in Hq as ([id p] & <- & Hp).
  destruct (Hin id p Hp) as (i & w' & Hn & -> & _). cbn [snd].
  assert (i < List.length words) by (apply nth_error_Some; congruence). lia.
Qed.

(** ** The run over a directory *)

Lemma _process_single_file_eq (self : builder) (f : txt_file) :
  _process_single_file self f
  = (self, record_file (lexicon self) f,
     (if readable_txt f then stem f else name f, readable_txt f)).
Proof.
  unfold _process_single_file, record_file, readable_txt.
  destruct (text f) as [content|]; [|reflexivity].
  destruct (index_words (lexicon self) (findall_words content)). reflexivity.
Qed.

Lemma process_batch_eq (batch : list txt_file) : forall acc : run_result,
  let r := process_batch acc batch in
  self_after r = self_after acc
  /\ written r = written acc ++ flat_map (record_file (lexicon (self_after acc))) batch
  /\ successful r
     = (successful acc + Z.of_nat (List.length (filter readable_txt batch)))%Z
  /\ failed r
     = (failed acc
        + Z.of_nat (List.length (filter (fun f => negb (readable_txt f)) batch)))%Z.
Proof.
  unfold process_batch.
  induction batch as [|f batch IH]; intros acc.
  - cbn [fold_left flat_map filter List.length]. rewrite app_nil_r.
    repeat split; lia.
  - cbn [fold_left]. rewrite _process_single_file_eq.
    match goal with |- context [fold_left _ batch ?a] => specialize (IH a) end.
    cbv zeta in IH. destruct IH as (H1 & H2 & H3 & H4).
    cbv zeta. rewrite H1, H2, H3, H4. cbn [self_after written successful failed].
    cbn [flat_map filter]. rewrite <- app_assoc.
    destruct (readable_txt f); cbn [negb List.length]; repeat split; lia.
Qed.

Lemma process_batches_eq (bs : list (list txt_file)) : forall acc : run_result,
  let r := fold_left process_batch bs acc in
  self_after r = self_after acc
  /\ written r
     = written acc ++ flat_map (record_file (lexicon (self_after acc))) (List.concat bs)
  /\ successful r
     = (successful acc + Z.of_nat (List.length (filter readable_txt (List.concat bs))))%Z
  /\ failed r
     = (failed acc
        + Z.of_nat (List.length
                      (filter (fun f => negb (readable_txt f)) (List.concat bs))))%Z.
Proof.
  induction bs as [|b bs IH]; intros acc.
  - cbn [fold_left List.concat flat_map filter List.length]. rewrite app_nil_r.
    repeat split; lia.
  - cbn [fold_left List.concat].
    destruct (process_batch_eq b acc) as (B1 & B2 & B3 & B4).
    destruct (IH (process_batch acc b)) as (H1 & H2 & H3 & H4).
    cbv zeta. rewrite H1, H2, H3, H4, B1, B2, B3, B4.
    rewrite flat_map_app, !filter_app, !length_app, <- app_assoc.
    repeat split; lia.
Qed.

Lemma filter_split_length {A : Type} (p : A -> bool) (l : list A) :
  List.length (filter p l) + List.length (filter (fun x => negb (p x)) l)
  = List.length l.
Proof.
  induction l as [|x l IH]; simpl; [reflexivity|].
  destruct (p x); simpl; lia.
Qed.

(** X7. A run of [build_indexes] over a directory with text files writes
    one record file per readable file, in the order of the directory, and
    none for a file it cannot read; [successful] counts the readable files,
    [failed] the others, and [files_processed] of the statistics is
    [successful]. *)
Theorem X7_run_accounts_for_every_file :
  forall (self : builder) (dir : list txt_file) (r : run_result),
    build_indexes self dir = Some r ->
    let txt_files := _get_txt_files dir in
    written r = flat_map (record_file (lexicon self)) txt_files
    /\ successful r = Z.of_nat (List.length (filter readable_txt txt_files))
    /\ failed r
       = Z.of_nat (List.length (filter (fun f => negb (readable_txt f)) txt_files))
    /\ (successful r + failed r)%Z = Z.of_nat (List.length txt_files)
    /\ files_processed (self_stats (self_after r)) = successful r.
Proof.
  intros self dir r. unfold build_indexes. cbv zeta.
  destruct (_get_txt_files dir) as [|f fs] eqn:E; [discriminate|].
  rewrite <- E. clear E f fs.
  set (acc0 := {| self_after := self; written := []; successful := 0;
                  failed := 0; summary_raises := false |}).
  destruct (process_batches_eq (batches (batch_size self) (_get_txt_files dir)) acc0)
    as (H1 & H2 & H3 & H4).
  rewrite concat_batches in H2, H3, H4.
  intros [= <-]. cbn [written successful failed self_after self_stats files_processed].
  rewrite H2, H3, H4. cbn [acc0 written successful failed self_after app].
  repeat split; try lia.
  pose proof (filter_split_length readable_txt (_get_txt_files dir)). lia.
Qed.

Lemma X7_witness_one_unreadable :
  option_map (fun r => (successful r, failed r, map fst (written r)))
    (build_indexes (init [("star", 1%Z)] 100)
       [{| stem := "a"; text := Some "star nebula" |};
        {| stem := "broken"; text := None |}])
  = Some (1%Z, 1%Z, ["a.json"]).
Proof.
  destruct (build_indexes (init [("star", 1%Z)] 100)
              [{| stem := "a"; text := Some "star nebula" |};
               {| stem := "broken"; text := None |}]) as [r|] eqn:E;
    [|discriminate E].
  destruct (X7_run_accounts_for_every_file _ _ r E) as (Hw & Hs & Hf & _).
  cbn [option_map]. rewrite Hw, Hs, Hf. reflexivity.
Defined.

(** X8. The closing summary of [build_indexes] divides the elapsed time by
    [successful]: it raises, after the statistics are saved, exactly when not
    one of the text files could be read. *)
Theorem X8_summary_raises_when_nothing_was_read :
  forall (self : builder) (dir : list txt_file) (r : run_result),
    build_indexes self dir = Some r ->
    (summary_raises r = true
     <-> forall f, In f (_get_txt_files dir) -> text f = None).
Proof.
  intros self dir r Hr.
  assert (Hs : successful r
               = Z.of_nat (List.length (filter readable_txt (_get_txt_files dir)))).
  { unfold build_indexes in Hr. cbv zeta in Hr.
    destruct (_get_txt_files dir) as [|f fs] eqn:E; [discriminate|].
    rewrite <- E in *.
    destruct (process_batches_eq (batches (batch_size self) (_get_txt_files dir))
                {| self_after := self; written := []; successful := 0;
                   failed := 0; summary_raises := false |}) as (_ & _ & H3 & _).
    rewrite concat_batches in H3.
    injection Hr as <-. cbn [successful]. rewrite H3. reflexivity. }
  assert (Hr' : summary_raises r = (successful r =? 0)%Z).
  { unfold build_indexes in Hr. cbv zeta in Hr.
    destruct (_get_txt_files dir); [discriminate|]. now injection Hr as <-. }
  rewrite Hr', Hs, Z.eqb_eq. split.
  - intros H f Hf. destruct (text f) as [c|] eqn:Hc; [|reflexivity].
    exfalso.
    assert (Hin : In f (filter readable_txt (_get_txt_files dir))).
    { apply filter_In. split; [assumption|]. unfold readable_txt. now rewrite Hc. }
    destruct (filter readable_txt (_get_txt_files dir)); [contradiction|].
    simpl in H. lia.
  - intros H.
    assert (E : filter readable_txt (_get_txt_files dir) = []).
    { revert H. generalize (_get_txt_files dir). intros l H.
      induction l as [|f fs IH]; [reflexivity|].
      cbn [filter]. unfold readable_txt at 1.
      rewrite (H f (or_introl eq_refl)). apply IH. intros g Hg. apply H. now right. }
    now rewrite E.
Qed.

Lemma X8_witness_all_unreadable :
  option_map summary_raises
    (build_indexes (init [("star", 1%Z)] 100) [{| stem := "broken"; text := None |}])
  = Some true.
Proof.
  destruct (build_indexes (init [("star", 1%Z)] 100)
              [{| stem := "broken"; text := None |}]) as [r|] eqn:E;
    [|discriminate E].
  cbn [option_map]. f_equal.
  apply (X8_summary_raises_when_nothing_was_read _ _ r E).
  intros f [<- | []]. reflexivity.
Defined.



End ForwardExtras.

(* ================================================================== *)
(** * The batch loops *)
(* ================================================================== *)

Module BatchExtras.
Import Py PyFacts.

Lemma batches_fuel_bounds {A : Type} (size fuel : nat) : forall l : list A,
  0 < size ->
  Forall (fun b => 1 <= List.length b <= size) (batches_fuel fuel size l).
Proof.
  induction fuel as [|fuel IH]; intros l Hsize.
  - destruct l; constructor.
  - destruct l as [|x l]; [constructor|].
    change (batches_fuel (S fuel) size (x :: l))
      with (firstn size (x :: l) :: batches_fuel fuel size (skipn size (x :: l))).
    constructor; [|now apply IH].
    rewrite length_firstn. cbn [List.length]. lia.
Qed.

Lemma ceil_step (len size : nat) :
  0 < size -> 0 < len ->
  S ((len - size + size - 1) / size) = (len + size - 1) / size.
Proof.
  intros Hsize Hlen.
  replace (len + size - 1) with ((len - 1) + 1 * size) by lia.
  rewrite Nat.div_add by lia.
  destruct (Nat.le_gt_cases len size) as [Hle | Hgt].
  - replace (len - size + size - 1) with (size - 1) by lia.
    rewrite !Nat.div_small by lia. reflexivity.
  - replace (len - size + size - 1) with (len - 1) by lia. lia.
Qed.

Lemma batches_fuel_count {A : Type} (size fuel : nat) : forall l : list A,
  0 < size -> List.length l <= fuel ->
  List.length (batches_fuel fuel size l) = (List.length l + size - 1) / size.
Proof.
  induction fuel as [|fuel IH]; intros l Hsize Hlen.
  - destruct l; simpl in *; [|lia]. rewrite Nat.div_small; lia.
  - destruct l as [|x l].
    + simpl. rewrite Nat.div_small; lia.
    + change (batches_fuel (S fuel) size (x :: l))
        with (firstn size (x :: l) :: batches_fuel fuel size (skipn size (x :: l))).
      cbn [List.length] in Hlen.
      assert (Hsk : List.length (skipn size (x :: l)) = S (List.length l) - size)
        by (rewrite length_skipn; reflexivity).
      change (List.length (firstn size (x :: l)
                           :: batches_fuel fuel size (skipn size (x :: l))))
        with (S (List.length (batches_fuel fuel size (skipn size (x :: l))))).
      rewrite IH by (try assumption; lia).
      rewrite Hsk. change (List.length (x :: l)) with (S (List.length l)).
      apply ceil_step; lia.
Qed.

(** X9. The batch loop of the three builders cuts the list of files into
    consecutive batches that, put together again, are the list: no file is
    left out, repeated or moved.  Every batch holds at least one and at most
    [batch_size] files, and there are as many batches as the builders
    announce, [(len(files) + batch_size - 1) // batch_size]. *)
Theorem X9_batches_cover_the_files :
  forall (A : Type) (size : positive) (files : list A),
    List.concat (batches size files) = files
    /\ Forall (fun b => 1 <= List.length b <= Pos.to_nat size) (batches size files)
    /\ List.length (batches size files)
       = (List.length files + Pos.to_nat size - 1) / Pos.to_nat size.
Proof.
  intros A size files. split; [apply concat_batches|]. split.
  - apply batches_fuel_bounds. apply Pos2Nat.is_pos.
  - apply batches_fuel_count; [apply Pos2Nat.is_pos | apply Nat.le_refl].
Qed.

End BatchExtras.

(* ================================================================== *)
(** * Further properties of the backward index builder *)
(* ================================================================== *)

Module BackwardExtras.
Import Py Backward PyFacts BackwardProofs.

(** ** The barrel names *)

Lemma letters_lower (c : ascii) : In c letters <-> is_lower c = true.
Proof.
  split.
  - intros H. vm_compute in H.
    repeat (destruct H as [<- | H]; [reflexivity|]). contradiction.
  - destruct c as [[] [] [] [] [] [] [] []]; intros H; try discriminate H;
      vm_compute; repeat (try (left; reflexivity); right).
Qed.

Lemma barrel_names_In (a b c : ascii) :
  In (String a (String b (String c EmptyString))) _generate_barrel_names
  <-> In a letters /\ In b letters /\ In c letters.
Proof.
  unfold _generate_barrel_names. rewrite in_flat_map. split.
  - intros (a' & Ha & H). apply in_flat_map in H as (b' & Hb & H).
    apply in_map_iff in H as (c' & [= <- <- <-] & Hc). auto.
  - intros (Ha & Hb & Hc). exists a. split; [assumption|].
    apply in_flat_map. exists b. split; [assumption|].
    apply in_map_iff. exists c. auto.
Qed.

Lemma barrel_names_shape (s : string) :
  In s _generate_barrel_names ->
  exists a b c, s = String a (String b (String c EmptyString)).
Proof.
  unfold _generate_barrel_names. rewrite in_flat_map.
  intros (a & _ & H). apply in_flat_map in H as (b & _ & H).
  apply in_map_iff in H as (c & <- & _). eauto.
Qed.

Lemma strictly_ascending_Sorted (l : list string) :
  strictly_ascending l = true -> Sorted Lexicon.word_lt l.
Proof.
  induction l as [|a l IH]; [constructor|].
  destruct l as [|b l]; [repeat constructor|].
  cbn [strictly_ascending]. rewrite andb_true_iff. intros [Hab Hl].
  constructor; [now apply IH|]. constructor.
  unfold Lexicon.word_lt. unfold String.ltb in Hab.
  destruct (String.compare a b); (reflexivity || discriminate).
Qed.

(** X10. [_generate_barrel_names] lists the 26 * 26 * 26 = 17576 strings of
    three lowercase letters, each once, from aaa to zzz in the order of
    strings. *)
Theorem X10_barrel_names :
  List.length _generate_barrel_names = 26 * 26 * 26
  /\ NoDup _generate_barrel_names
  /\ StronglySorted Lexicon.word_lt _generate_barrel_names
  /\ forall s : string,
       In s _generate_barrel_names
       <-> String.length s = 3 /\ all_chars is_lower s = true.
Proof.
  assert (Hs : StronglySorted Lexicon.word_lt _generate_barrel_names).
  { apply Sorted_StronglySorted.
    - intros x y z. apply LexiconProofs.word_lt_trans.
    - apply strictly_ascending_Sorted. vm_compute. reflexivity. }
  split; [vm_compute; reflexivity|].
  split; [now apply LexiconProofs.strict_sorted_NoDup|].
  split; [exact Hs|].
  intros s. split.
  - intros H. destruct (barrel_names_shape s H) as (a & b & c & ->).
    apply barrel_names_In in H as (Ha & Hb & Hc).
    apply letters_lower in Ha, Hb, Hc.
    split; [reflexivity|]. simpl. now rewrite Ha, Hb, Hc.
  - intros [Hlen Hall].
    destruct s as [|a [|b [|c [|d r]]]]; try discriminate Hlen.
    simpl in Hall. rewrite !andb_true_iff in Hall.
    destruct Hall as (Ha & Hb & Hc & _).
    apply barrel_names_In. rewrite !letters_lower. auto.
Qed.

Lemma lower_char_is_lower (c : ascii) : is_lower (lower_char c) = is_letter c.
Proof. destruct c as [[] [] [] [] [] [] [] []]; reflexivity. Qed.

(** X11. For a word whose first three characters (or all of them, for a
    shorter word) are ASCII, the barrel name is one of the names that
    [_generate_barrel_names] lists exactly when these characters are letters.
    A word with a digit or another ASCII character there gets a barrel
    outside the list. *)
Theorem X11_barrel_name_is_generated :
  forall word : string,
    all_chars is_ascii (prefix_slice 3 word) = true ->
    (In (_get_barrel_name word) _generate_barrel_names
     <-> all_chars is_letter (prefix_slice 3 word) = true).
Proof.
  intros word _.
  destruct word as [|a [|b [|c [|d r]]]];
    unfold _get_barrel_name, prefix_slice; cbn [append substring lower all_chars];
    rewrite barrel_names_In, !letters_lower, ?lower_char_is_lower;
    rewrite ?andb_true_iff; cbn; intuition auto.
Qed.

Lemma X11_witness_nebula_and_4you :
  In (_get_barrel_name "nebula") _generate_barrel_names
  /\ ~ In (_get_barrel_name "4you") _generate_barrel_names.
Proof.
  split.
  - exact (proj2 (X11_barrel_name_is_generated "nebula" eq_refl) eq_refl).
  - intros H.
    pose proof (proj1 (X11_barrel_name_is_generated "4you" eq_refl) H) as E.
    discriminate E.
Defined.

Lemma lower_char_twice (c : ascii) : lower_char (lower_char c) = lower_char c.
Proof. destruct c as [[] [] [] [] [] [] [] []]; reflexivity. Qed.

(** X12. The barrel of a word does not depend on the case of its letters:
    a reader may compute it from the word as typed or from the lowercased
    word of the lexicon. *)
Theorem X12_barrel_name_ignores_case :
  forall word : string, _get_barrel_name (lower word) = _get_barrel_name word.
Proof.
  intros word.
  destruct word as [|a [|b [|c [|d r]]]];
    unfold _get_barrel_name, prefix_slice; cbn [append substring lower];
    now rewrite ?lower_char_twice.
Qed.

(** ** What is in the index and in the barrel files *)

Lemma update_positions_full (doc : string) (p : Z) (docs : postings) :
  Forall (fun dp => snd dp <> []) docs ->
  update String.eqb doc (fun ps => ps ++ [p]) [] docs <> []
  /\ Forall (fun dp => snd dp <> [])
       (update String.eqb doc (fun ps => ps ++ [p]) [] docs).
Proof.
  intros H. split.
  - destruct docs as [|[d ps] docs]; simpl; [discriminate|].
    destruct (String.eqb d doc); discriminate.
  - apply (Forall_update String.eqb (fun ps : list Z => ps <> [])); [|exact H].
    intros ps. destruct ps; discriminate.
Qed.

Lemma add_posting_full (inv : inverted) (doc : string) (w p : Z) :
  index_full inv -> index_full (add_posting inv doc w p).
Proof.
  unfold index_full, add_posting.
  induction 1 as [|[w0 d0] inv [H1 H2] H IH]; cbn [update].
  - constructor; [|constructor]. cbn [snd].
    apply (update_positions_full doc p []). constructor.
  - destruct (Z.eqb w0 w).
    + constructor; [|assumption]. cbn [snd] in *.
      now apply update_positions_full.
    + constructor; [split; assumption | exact IH].
Qed.

Lemma flip_full (doc : string) (fi : list item) : forall inv,
  index_full inv -> index_full (fst (flip doc fi inv)).
Proof.
  induction fi as [|[w p|] fi IH]; intros inv H; cbn [flip fst]; auto.
  apply IH. now apply add_posting_full.
Qed.

Lemma index_of_full (files : list (string * fwd_file)) : forall inv,
  index_full inv -> index_full (index_of files inv).
Proof.
  unfold index_of.
  induction files as [|[name f] files IH]; intros inv H; cbn [fold_left snd]; auto.
  apply IH. destruct f as [|[|[doc fi] more]]; cbn [absorb fst]; auto.
  now apply flip_full.
Qed.

Lemma flip_NoDup (doc : string) (fi : list item) : forall inv,
  NoDup (keys inv) -> NoDup (keys (fst (flip doc fi inv))).
Proof.
  induction fi as [|[w p|] fi IH]; intros inv H; cbn [flip fst]; auto.
  apply IH. now apply add_posting_NoDup.
Qed.

Lemma index_of_NoDup (files : list (string * fwd_file)) : forall inv,
  NoDup (keys inv) -> NoDup (keys (index_of files inv)).
Proof.
  unfold index_of.
  induction files as [|[name f] files IH]; intros inv H; cbn [fold_left snd]; auto.
  apply IH. destruct f as [|[|[doc fi] more]]; cbn [absorb fst]; auto.
  now apply flip_NoDup.
Qed.

(** The files of a run over any directory. *)
Lemma files_of_any_run (lex : list (string * Z)) (size : positive)
  (dir : list (string * fwd_file)) :
  _get_forward_index_files dir <> [] ->
  build_inverted_index (init lex size) dir
  = ({| lexicon := lex; id_to_word := id_to_word (init lex size);
        inverted_index := []; batch_size := size;
        self_stats :=
          {| files_processed :=
               Z.of_nat (count_readable (_get_forward_index_files dir));
             total_words_indexed :=
               Z.of_nat (List.length (index_of (_get_forward_index_files dir) []));
             barrels_created :=
               Z.of_nat (List.length
                           (distribute (id_to_word (init lex size))
                              (index_of (_get_forward_index_files dir) []))) |} |},
     map (fun nb => (barrel_file (fst nb), snd nb))
       (distribute (id_to_word (init lex size))
          (index_of (_get_forward_index_files dir) []))).
Proof.
  intros Hne. rewrite build_inverted_index_eq.
  destruct (_get_forward_index_files dir) eqn:E; [congruence|].
  rewrite <- E. cbv zeta. cbn [inverted_index init lexicon id_to_word batch_size].
  rewrite save_nonempty by apply distribute_invariants. reflexivity.
Qed.

Lemma Forall_update_strong {K V : Type} (eqb : K -> K -> bool) (Q : V -> Prop)
  (k : K) (f : V -> V) (dflt : V) (d : list (K * V)) :
  Q (f dflt) -> (forall v, Q v -> Q (f v)) ->
  Forall (fun kv => Q (snd kv)) d ->
  Forall (fun kv => Q (snd kv)) (update eqb k f dflt d).
Proof.
  intros Hd Hf. induction 1 as [|[k' v] d Hv Hd' IH]; simpl.
  - repeat constructor. exact Hd.
  - destruct (eqb k' k); constructor; simpl; auto.
Qed.

Lemma place_values_strong (Q : postings -> Prop) (itw : list (Z * string))
  (acc : list (string * barrel)) (e : Z * postings) :
  Q (snd e) ->
  Forall (fun nb => Forall (fun kd => Q (snd kd)) (snd nb)) acc ->
  Forall (fun nb => Forall (fun kd => Q (snd kd)) (snd nb)) (place itw acc e).
Proof.
  destruct e as [w docs]. cbn [snd]. intros Hq Hacc. unfold place.
  destruct (get Z.eqb w itw); [|assumption].
  apply (Forall_update_strong String.eqb
           (fun b : barrel => Forall (fun kd => Q (snd kd)) b)); [| |assumption].
  - cbn [assign]. repeat constructor. exact Hq.
  - intros b Hb. rewrite (assign_update String.eqb).
    apply (Forall_update_strong String.eqb Q); auto.
Qed.

Lemma place_keys_NoDup (itw : list (Z * string)) (acc : list (string * barrel))
  (e : Z * postings) :
  Forall (fun nb => NoDup (keys (snd nb))) acc ->
  Forall (fun nb => NoDup (keys (snd nb))) (place itw acc e).
Proof.
  destruct e as [w docs]. intros Hacc. unfold place.
  destruct (get Z.eqb w itw); [|assumption].
  apply (Forall_update_strong String.eqb (fun b : barrel => NoDup (keys b)));
    [| |assumption].
  - cbn [assign keys map fst]. repeat constructor. simpl. tauto.
  - intros b Hb. rewrite (assign_update String.eqb).
    now apply (NoDup_keys_update String.eqb String.eqb_eq).
Qed.

Lemma distribute_values (itw : list (Z * string)) (inv : inverted) :
  index_full inv ->
  Forall (fun nb =>
            NoDup (keys (snd nb))
            /\ Forall (fun kd => snd kd <> []
                                 /\ Forall (fun dp => snd dp <> []) (snd kd))
                 (snd nb))
         (distribute itw inv).
Proof.
  unfold distribute, index_full. intros Hfull.
  assert (H : forall acc,
             Forall (fun nb : string * barrel => NoDup (keys (snd nb))) acc ->
             Forall (fun nb : string * barrel =>
                       Forall (fun kd => snd kd <> []
                                         /\ Forall (fun dp : string * list Z => snd dp <> [])
                                              (snd kd)) (snd nb)) acc ->
             Forall (fun nb : string * barrel => NoDup (keys (snd nb)))
               (fold_left (place itw) inv acc)
             /\ Forall (fun nb : string * barrel =>
                          Forall (fun kd => snd kd <> []
                                            /\ Forall (fun dp : string * list Z => snd dp <> [])
                                                 (snd kd)) (snd nb))
                  (fold_left (place itw) inv acc)).
  { induction Hfull as [|e inv He Hinv IH]; intros acc H1 H2; cbn [fold_left]; [auto|].
    apply IH.
    - now apply place_keys_NoDup.
    - now apply (place_values_strong
                   (fun docs => docs <> [] /\ Forall (fun dp => snd dp <> []) docs)). }
  destruct (H [] (Forall_nil _) (Forall_nil _)) as [H1 H2].
  apply Forall_forall. intros nb Hnb. rewrite Forall_forall in H1, H2. auto.
Qed.

Lemma NoDup_map_barrel_file (barrels : list (string * barrel)) :
  NoDup (keys barrels) ->
  NoDup (map fst (map (fun nb => (barrel_file (fst nb), snd nb)) barrels)).
Proof.
  unfold keys. rewrite map_map. cbn [fst].
  induction barrels as [|[n b] barrels IH]; cbn [map fst]; intros H; [constructor|].
  inversion H as [|? ? Hnin Hnd]; subst. constructor; [|auto].
  intros Hin. apply Hnin. apply in_map_iff in Hin as ([n' b'] & E & Hin).
  cbn [fst] in E. apply barrel_file_inj in E. subst n'.
  apply in_map_iff. exists (n, b'). auto.
Qed.

(** X13. Whatever the forward-index directory holds, the barrel files of a
    run have pairwise different names, none of them is an empty object, no
    word-id key in them has an empty object of documents, and no document an
    empty list of positions; word-id keys are not repeated inside a file, and
    [barrels_created] is the number of files written. *)
Theorem X13_barrel_files_are_full :
  forall (lex : list (string * Z)) (size : positive) (dir : list (string * fwd_file)),
    let run := build_inverted_index (init lex size) dir in
    NoDup (map fst (snd run))
    /\ Forall (fun f =>
                 snd f <> [] /\ NoDup (keys (snd f))
                 /\ Forall (fun kd => snd kd <> []
                                      /\ Forall (fun dp => snd dp <> []) (snd kd))
                      (snd f))
              (snd run)
    /\ barrels_created (self_stats (fst run)) = Z.of_nat (List.length (snd run)).
Proof.
  intros lex size dir run. subst run.
  destruct (_get_forward_index_files dir) as [|f fs] eqn:E.
  - rewrite build_inverted_index_eq, E. cbn. repeat split; constructor.
  - rewrite files_of_any_run by congruence.
    cbn [fst snd self_stats barrels_created].
    set (inv := index_of (_get_forward_index_files dir) []).
    set (itw := id_to_word (init lex size)).
    destruct (distribute_invariants itw inv) as [Hnd Hne].
    assert (Hfull : index_full inv) by (apply index_of_full; constructor).
    pose proof (distribute_values itw inv Hfull) as Hv.
    split; [now apply NoDup_map_barrel_file|]. split.
    + apply Forall_forall. intros [n b] Hin.
      apply in_map_iff in Hin as ([n0 b0] & [= <- <-] & Hin). cbn [snd fst].
      rewrite Forall_forall in Hne, Hv.
      specialize (Hne _ Hin). specialize (Hv _ Hin). cbn [snd] in *. tauto.
    + now rewrite length_map.
Qed.

(** X14. Whatever the forward-index directory holds, every key of every
    barrel file is the string of a word id that has a word in the lexicon,
    and the file is the barrel of that word; the value under the key is what
    the index holds for the word id.  No word id is filed under the barrel
    of another word. *)
Theorem X14_keys_are_filed_under_their_word :
  forall (lex : list (string * Z)) (size : positive) (dir : list (string * fwd_file))
         (file key : string) (b : barrel) (docs : postings),
    In (file, b) (snd (build_inverted_index (init lex size) dir)) ->
    In (key, docs) b ->
    exists w word,
      key = str w
      /\ get Z.eqb w (id_to_word (init lex size)) = Some word
      /\ file = barrel_file (_get_barrel_name word)
      /\ get Z.eqb w (index_of (_get_forward_index_files dir) []) = Some docs.
Proof.
  intros lex size dir file key b docs Hfile Hkey.
  destruct (_get_forward_index_files dir) as [|f fs] eqn:E.
  { rewrite build_inverted_index_eq, E in Hfile. contradiction. }
  rewrite files_of_any_run in Hfile by congruence.
  rewrite <- E. cbn [snd] in Hfile.
  set (inv := index_of (_get_forward_index_files dir) []) in *.
  set (itw := id_to_word (init lex size)) in *.
  apply in_map_iff in Hfile as ([n b0] & [= <- <-] & Hin). cbn [fst snd] in *.
  destruct (distribute_invariants itw inv) as [Hnd _].
  assert (Hfull : index_full inv) by (apply index_of_full; constructor).
  pose proof (distribute_values itw inv Hfull) as Hv.
  rewrite Forall_forall in Hv. destruct (Hv _ Hin) as [Hkeys _]. cbn [snd] in Hkeys.
  assert (H2 : get2 (distribute itw inv) n key = Some docs).
  { unfold get2.
    rewrite (In_get_Some String.eqb String.eqb_eq n b0 _ Hnd Hin).
    now apply (In_get_Some String.eqb String.eqb_eq). }
  apply distribute_lookup_inv in H2 as [H2 | (w & word & Hw & Hitw & -> & ->)];
    [discriminate|].
  exists w, word. repeat split; auto.
  apply (In_get_Some Z.eqb Z.eqb_eq); [|assumption].
  apply index_of_NoDup. constructor.
Qed.

Lemma X14_witness_sta :
  exists w word,
    "1" = str w
    /\ get Z.eqb w (id_to_word (init [("nebula", 2%Z); ("star", 1%Z)] 100)) = Some word
    /\ "inverted_sta.json" = barrel_file (_get_barrel_name word)
    /\ get Z.eqb w
         (index_of (_get_forward_index_files
                      [("d1.json", file_of (Some ("d1", [(1, 0); (2, 1)]%Z)))]) [])
       = Some [("d1", [0%Z])].
Proof.
  apply (X14_keys_are_filed_under_their_word [("nebula", 2%Z); ("star", 1%Z)] 100
           [("d1.json", file_of (Some ("d1", [(1, 0); (2, 1)]%Z)))]
           "inverted_sta.json" "1" [("1", [("d1", [0%Z])])] [("d1", [0%Z])]).
  - vm_compute. left. reflexivity.
  - left. reflexivity.
Defined.

(** ** Files that are JSON and not a record *)

Lemma flip_bad_item (doc : string) (pairs : list (Z * Z)) (rest : list item) :
  forall inv,
    flip doc (map (fun wp => Pair (fst wp) (snd wp)) pairs ++ BadItem :: rest) inv
    = (absorb_pairs doc pairs inv, false).
Proof.
  induction pairs as [|[w p] pairs IH]; intros inv; simpl; [reflexivity|].
  apply IH.
Qed.

Lemma forallb_bad_item (pairs : list (Z * Z)) (rest : list item) :
  forallb is_pair (map (fun wp => Pair (fst wp) (snd wp)) pairs ++ BadItem :: rest)
  = false.
Proof. induction pairs as [|wp pairs IH]; simpl; auto. Qed.

Lemma forallb_pairs (pairs : list (Z * Z)) :
  forallb is_pair (map (fun wp => Pair (fst wp) (snd wp)) pairs) = true.
Proof. induction pairs as [|wp pairs IH]; simpl; auto. Qed.

(** Two directories that differ in one file with the same effect on the
    index give the same barrel files. *)
Lemma build_same_effect (lex : list (string * Z)) (size : positive)
  (pre post : list (string * fwd_file)) (name : string) (f g : fwd_file) :
  (forall inv, fst (absorb inv f) = fst (absorb inv g)) ->
  snd (build_inverted_index (init lex size) (pre ++ (name, f) :: post))
  = snd (build_inverted_index (init lex size) (pre ++ (name, g) :: post))
  /\ (name <> stats_name ->
      files_processed (self_stats (fst (build_inverted_index (init lex size)
                                          (pre ++ (name, f) :: post))))
      = Z.of_nat (count_readable (_get_forward_index_files (pre ++ post))
                  + (if readable f then 1 else 0))).
Proof.
  intros Hsame. rewrite !build_inverted_index_eq.
  unfold _get_forward_index_files. rewrite !filter_app. cbn [filter fst].
  set (keep := fun f : string * fwd_file => negb (String.eqb (fst f) stats_name)).
  destruct (String.eqb_spec name stats_name) as [Hn | Hn]; cbn [negb].
  { split; [reflexivity | contradiction]. }
  assert (Hidx : forall inv,
             index_of (filter keep pre ++ (name, f) :: filter keep post) inv
             = index_of (filter keep pre ++ (name, g) :: filter keep post) inv).
  { intros inv. rewrite !index_of_app. unfold index_of at 1 3.
    cbn [fold_left snd]. now rewrite Hsame. }
  destruct (filter keep pre ++ (name, f) :: filter keep post) as [|x l] eqn:Ef.
  { destruct (filter keep pre); discriminate. }
  rewrite <- Ef in *. clear Ef x l.
  destruct (filter keep pre ++ (name, g) :: filter keep post) as [|y m] eqn:Eg.
  { destruct (filter keep pre); discriminate. }
  rewrite <- Eg in *. clear Eg y m.
  cbv zeta. cbn [fst snd self_stats files_processed].
  rewrite Hidx. split; [reflexivity|]. intros _.
  rewrite !count_readable_app. unfold count_readable at 2. cbn [filter snd].
  destruct (readable f); cbn [List.length];
    fold (count_readable (filter keep post)); f_equal; lia.
Qed.

(** X15. A forward-index file whose array holds an element that is not a
    pair fails, and is not counted as processed, but what it held before that
    element stays in the index: the barrel files are those of a run in which
    the file is the record of the same document with the pairs before the bad
    element. *)
Theorem X15_pairs_before_a_bad_element_stay :
  forall (lex : list (string * Z)) (size : positive)
         (pre post : list (string * fwd_file)) (name doc : string)
         (pairs : list (Z * Z)) (rest : list item)
         (more : list (string * list item)),
    name <> stats_name ->
    let broken :=
      Loaded ((doc, map (fun wp => Pair (fst wp) (snd wp)) pairs ++ BadItem :: rest)
              :: more) in
    let run := build_inverted_index (init lex size) (pre ++ (name, broken) :: post) in
    snd run
    = snd (build_inverted_index (init lex size)
             (pre ++ (name, file_of (Some (doc, pairs))) :: post))
    /\ files_processed (self_stats (fst run))
       = Z.of_nat (count_readable (_get_forward_index_files (pre ++ post))).
Proof.
  intros lex size pre post name doc pairs rest more Hname broken run.
  subst run broken.
  destruct (build_same_effect lex size pre post name
              (Loaded ((doc, map (fun wp => Pair (fst wp) (snd wp)) pairs
                             ++ BadItem :: rest) :: more))
              (file_of (Some (doc, pairs)))) as [H1 H2].
  - intros inv. cbn [absorb file_of]. now rewrite flip_bad_item, flip_pairs.
  - split; [exact H1|]. rewrite (H2 Hname). cbn [readable].
    rewrite forallb_bad_item. f_equal. lia.
Qed.

Lemma X15_witness_broken_file :
  let lex := [("nebula", 2%Z); ("star", 1%Z)] in
  snd (build_inverted_index (init lex 100)
         ([] ++ ("d1.json", Loaded [("d1", [Pair 1 0; BadItem; Pair 2 2])]) :: []))
  = [("inverted_sta.json", [("1", [("d1", [0%Z])])])].
Proof.
  cbv zeta.
  destruct (X15_pairs_before_a_bad_element_stay [("nebula", 2%Z); ("star", 1%Z)] 100
              [] [] "d1.json" "d1" [(1, 0)%Z] [Pair 2 2] []) as [H _].
  - discriminate.
  - etransitivity; [exact H | reflexivity].
Defined.

(** X16. A file that holds the empty JSON object, and a file whose array
    starts with an element that the loop header cannot unpack into two
    values (a number, [null], an array or a string of another length than
    two), are treated as a file that cannot be read: the whole result of the
    run, barrel files and statistics, is the same. *)
Theorem X16_empty_object_is_skipped :
  forall (lex : list (string * Z)) (size : positive)
         (pre post : list (string * fwd_file)) (name doc : string)
         (rest : list item) (more : list (string * list item)),
    build_inverted_index (init lex size) (pre ++ (name, Loaded []) :: post)
    = build_inverted_index (init lex size) (pre ++ (name, Unreadable) :: post)
    /\ build_inverted_index (init lex size)
         (pre ++ (name, Loaded ((doc, BadItem :: rest) :: more)) :: post)
       = build_inverted_index (init lex size) (pre ++ (name, Unreadable) :: post).
Proof.
  intros lex size pre post name doc rest more.
  assert (H : forall f,
             (forall inv, absorb inv f = (inv, false)) ->
             build_inverted_index (init lex size) (pre ++ (name, f) :: post)
             = build_inverted_index (init lex size) (pre ++ (name, Unreadable) :: post)).
  { intros f Hf. rewrite !build_inverted_index_eq.
    unfold _get_forward_index_files. rewrite !filter_app. cbn [filter fst].
    destruct (negb (String.eqb name stats_name)); [|reflexivity].
    set (l1 := filter _ pre). set (l2 := filter _ post).
    assert (Hidx : forall inv, index_of (l1 ++ (name, f) :: l2) inv
                               = index_of (l1 ++ (name, Unreadable) :: l2) inv).
    { intros inv. rewrite !index_of_app. unfold index_of at 1 3.
      cbn [fold_left snd]. now rewrite Hf. }
    assert (Hcnt : count_readable (l1 ++ (name, f) :: l2)
                   = count_readable (l1 ++ (name, Unreadable) :: l2)).
    { rewrite !count_readable_app. unfold count_readable at 2 4. cbn [filter snd].
      rewrite <- (absorb_ok [] f), Hf. reflexivity. }
    destruct (l1 ++ (name, f) :: l2) as [|x l] eqn:Ef.
    { destruct l1; discriminate. }
    rewrite <- Ef in *. clear Ef x l.
    destruct (l1 ++ (name, Unreadable) :: l2) as [|y m] eqn:Eg.
    { destruct l1; discriminate. }
    rewrite <- Eg in *. clear Eg y m.
    cbv zeta. now rewrite Hidx, Hcnt. }
  split; apply H; intros inv; reflexivity.
Qed.

(** ** Documents with more than one record *)

Lemma stored_positions_add (inv : inverted) (doc d : string) (w' w p : Z) :
  stored_positions (add_posting inv doc w' p) w d
  = stored_positions inv w d
    ++ (if Z.eqb w' w && String.eqb doc d then [p] else []).
Proof.
  unfold stored_positions.
  destruct (Z.eqb_spec w' w) as [-> | Hw]; cbn [andb].
  - unfold postings_at at 1. rewrite get_add_posting_same.
    destruct (String.eqb_spec doc d) as [-> | Hd].
    + rewrite (get_update_same String.eqb String.eqb_eq).
      destruct (get String.eqb d (postings_at w inv)); reflexivity.
    + rewrite (get_update_other String.eqb String.eqb_eq) by congruence.
      now rewrite app_nil_r.
  - unfold postings_at. rewrite get_add_posting_other by congruence.
    now rewrite app_nil_r.
Qed.

Lemma stored_positions_absorb_pairs (doc d : string) (w : Z) (pairs : list (Z * Z)) :
  forall inv,
    stored_positions (absorb_pairs doc pairs inv) w d
    = stored_positions inv w d
      ++ (if String.eqb doc d then positions_of w pairs else []).
Proof.
  unfold absorb_pairs.
  induction pairs as [|[w' p] pairs IH]; intros inv; cbn [fold_left fst snd].
  - destruct (String.eqb doc d); now rewrite app_nil_r.
  - rewrite IH, stored_positions_add, <- app_assoc. f_equal.
    unfold positions_of. cbn [filter fst].
    destruct (Z.eqb w' w), (String.eqb doc d); reflexivity.
Qed.

Lemma stored_positions_absorb_records (d : string) (w : Z) (rs : list record) :
  forall inv,
    stored_positions (absorb_records rs inv) w d
    = stored_positions inv w d ++ merged_positions w d rs.
Proof.
  unfold absorb_records, merged_positions.
  induction rs as [|r rs IH]; intros inv; cbn [fold_left flat_map].
  - now rewrite app_nil_r.
  - now rewrite IH, stored_positions_absorb_pairs, <- app_assoc.
Qed.

Lemma index_full_positions (inv : inverted) (w : Z) (docs : postings)
  (d : string) (ps : list Z) :
  index_full inv ->
  get Z.eqb w inv = Some docs -> get String.eqb d docs = Some ps -> ps <> [].
Proof.
  unfold index_full. rewrite Forall_forall. intros Hfull Hw Hd.
  apply (get_Some_In Z.eqb Z.eqb_eq) in Hw.
  apply (get_Some_In String.eqb String.eqb_eq) in Hd.
  destruct (Hfull _ Hw) as [_ H]. cbn [snd] in H.
  rewrite Forall_forall in H. apply (H _ Hd).
Qed.

(** What the barrel file of a word holds for a word id and a document
    name. *)
Lemma lookup3_merged :
  forall (lex : list (string * Z)) (size : positive)
         (entries : list (string * option record)) (w : Z) (word d : string),
    get Z.eqb w (id_to_word (init lex size)) = Some word ->
    lookup3 (snd (build_inverted_index (init lex size) (dir_of entries)))
      (barrel_file (_get_barrel_name word)) (str w) d
    = match merged_positions w d (records_in entries) with
      | [] => None
      | ps => Some ps
      end.
Proof.
  intros lex size entries w word d Hw.
  destruct (_get_forward_index_files (dir_of entries)) as [|f fs] eqn:E.
  { rewrite build_inverted_index_eq, E.
    now rewrite (no_files_no_records entries E). }
  rewrite files_of_run by congruence.
  set (rs := records_in entries).
  set (itw := id_to_word (init lex size)) in *.
  set (inv := absorb_records rs []).
  assert (Hfull : index_full inv).
  { unfold inv, rs. rewrite <- index_of_dir. apply index_of_full. constructor. }
  assert (Hnd : NoDup (keys inv)) by (apply absorb_records_NoDup; constructor).
  assert (Hst : stored_positions inv w d = merged_positions w d rs).
  { unfold inv. now rewrite stored_positions_absorb_records. }
  unfold lookup3. rewrite get_barrel_file.
  change (match get String.eqb (_get_barrel_name word) (distribute itw inv) with
          | Some b =>
              match get String.eqb (str w) b with
              | Some docs => get String.eqb d docs
              | None => None
              end
          | None => None
          end
          = match merged_positions w d rs with [] => None | ps => Some ps end).
  assert (H2 : get2 (distribute itw inv) (_get_barrel_name word) (str w)
               = get Z.eqb w inv).
  { destruct (get Z.eqb w inv) as [docs|] eqn:Hinv.
    - apply distribute_lookup; auto. now apply (get_Some_In Z.eqb Z.eqb_eq).
    - destruct (get2 _ _ _) as [docs|] eqn:H2; [|reflexivity].
      apply distribute_lookup_inv in H2 as [H2 | (w' & word' & Hin & _ & _ & Hs)];
        [discriminate|].
      apply str_inj in Hs. subst w'.
      apply (get_None Z.eqb Z.eqb_eq) in Hinv. exfalso. apply Hinv.
      apply in_map_iff. exists (w, docs). auto. }
  unfold get2 in H2.
  rewrite <- Hst. unfold stored_positions, postings_at.
  destruct (get Z.eqb w inv) as [docs|] eqn:Hinv.
  - destruct (get String.eqb (_get_barrel_name word) (distribute itw inv)) as [b|];
      [|discriminate].
    rewrite H2.
    destruct (get String.eqb d docs) as [ps|] eqn:Hd; [|reflexivity].
    pose proof (index_full_positions inv w docs d ps Hfull Hinv Hd).
    destruct ps; [contradiction | reflexivity].
  - destruct (get String.eqb (_get_barrel_name word) (distribute itw inv)) as [b|].
    + rewrite H2. reflexivity.
    + reflexivity.
Qed.

(** X17. Records need not have different document names.  For every word id
    with a word in the lexicon and every document name, the barrel file of the
    word holds under the key of the id and the name the positions of the id in
    all records of that name, record after record in the order of the
    directory; a name without such a position is absent. *)
Theorem X17_records_of_one_document_are_merged :
  forall (lex : list (string * Z)) (size : positive)
         (entries : list (string * option record)) (w : Z) (word d : string),
    get Z.eqb w (id_to_word (init lex size)) = Some word ->
    lookup3 (snd (build_inverted_index (init lex size) (dir_of entries)))
      (barrel_file (_get_barrel_name word)) (str w) d
    = match merged_positions w d (records_in entries) with
      | [] => None
      | ps => Some ps
      end.
Proof.
  intros lex size entries w word d Hw. now apply lookup3_merged.
Qed.

Lemma X17_witness_two_records_of_d :
  lookup3
    (snd (build_inverted_index (init [("star", 1%Z)] 100)
            (dir_of [("a.json", Some ("d", [(1, 0)]%Z));
                     ("b.json", Some ("d", [(1, 5); (1, 7)]%Z))])))
    "inverted_sta.json" "1" "d"
  = Some [0; 5; 7]%Z.
Proof.
  apply (X17_records_of_one_document_are_merged [("star", 1%Z)] 100
           [("a.json", Some ("d", [(1, 0)]%Z));
            ("b.json", Some ("d", [(1, 5); (1, 7)]%Z))] 1%Z "star" "d").
  reflexivity.
Defined.

(** ** The statistics of a run *)

Lemma keys_add_posting_In (inv : inverted) (doc : string) (w p x : Z) :
  In x (keys (add_posting inv doc w p)) <-> x = w \/ In x (keys inv).
Proof.
  unfold add_posting. rewrite keys_update, in_app_iff. unfold contains.
  destruct (get Z.eqb w inv) eqn:E.
  - assert (In w (keys inv)).
    { destruct (in_dec Z.eq_dec w (keys inv)) as [H | H]; [assumption|].
      apply (get_None Z.eqb Z.eqb_eq) in H. congruence. }
    simpl. split; [tauto|]. intros [-> | H']; auto.
  - simpl. split; [intros [H | [<- | []]]; auto | intros [-> | H]; auto].
Qed.

Lemma keys_absorb_records_In (rs : list record) (x : Z) : forall inv,
  In x (keys (absorb_records rs inv)) <-> In x (keys inv) \/ In x (word_ids rs).
Proof.
  unfold absorb_records, word_ids.
  induction rs as [|[doc pairs] rs IH]; intros inv; cbn [fold_left flat_map fst snd].
  - simpl. tauto.
  - rewrite IH, in_app_iff.
    assert (Hp : forall inv0,
               In x (keys (absorb_pairs doc pairs inv0))
               <-> In x (keys inv0) \/ In x (map fst pairs)).
    { unfold absorb_pairs. clear IH.
      induction pairs as [|[w p] pairs IHp]; intros inv0; cbn [fold_left map fst snd].
      - simpl. tauto.
      - rewrite IHp, keys_add_posting_In. simpl. intuition auto. }
    rewrite Hp. tauto.
Qed.

(** X18. After a run over a directory of records, [files_processed] is the
    number of record files, and [total_words_indexed] the number of different
    word ids in their pairs, whether or not the lexicon knows the id: an id
    that reaches no barrel is still counted as indexed. *)
Theorem X18_statistics_of_a_run :
  forall (lex : list (string * Z)) (size : positive)
         (entries : list (string * option record)),
    let st := self_stats (fst (build_inverted_index (init lex size) (dir_of entries))) in
    files_processed st = Z.of_nat (List.length (records_in entries))
    /\ total_words_indexed st
       = Z.of_nat (List.length (nodup Z.eq_dec (word_ids (records_in entries)))).
Proof.
  intros lex size entries st. subst st. rewrite build_inverted_index_eq.
  destruct (_get_forward_index_files (dir_of entries)) as [|f fs] eqn:E.
  - rewrite (no_files_no_records entries E). split; reflexivity.
  - rewrite <- E. cbv zeta. cbn [fst self_stats files_processed total_words_indexed].
    rewrite count_readable_dir, index_of_dir. cbn [inverted_index init].
    split; [reflexivity|]. f_equal.
    rewrite <- (length_map fst (absorb_records (records_in entries) [])).
    change (map fst (absorb_records (records_in entries) []))
      with (keys (absorb_records (records_in entries) [])).
    apply Permutation_length. apply NoDup_Permutation.
    + apply absorb_records_NoDup. constructor.
    + apply NoDup_nodup.
    + intros x. rewrite nodup_In, keys_absorb_records_In. simpl. tauto.
Qed.

(** ** The reverse lexicon *)

Lemma get_assign_same (k : Z) (v : string) (d : list (Z * string)) :
  get Z.eqb k (assign Z.eqb k v d) = Some v.
Proof.
  rewrite (assign_update Z.eqb). now rewrite (get_update_same Z.eqb Z.eqb_eq).
Qed.

Lemma get_assign_other (k k' : Z) (v : string) (d : list (Z * string)) :
  k' <> k -> get Z.eqb k' (assign Z.eqb k v d) = get Z.eqb k' d.
Proof.
  intros H. rewrite (assign_update Z.eqb).
  now apply (get_update_other Z.eqb Z.eqb_eq).
Qed.

Lemma of_pairs_get_other (k : Z) (pairs : list (Z * string)) : forall d,
  ~ In k (map fst pairs) ->
  get Z.eqb k (fold_left (fun d kv => assign Z.eqb (fst kv) (snd kv) d) pairs d)
  = get Z.eqb k d.
Proof.
  induction pairs as [|[k' v] pairs IH]; intros d Hnin; cbn [fold_left fst snd];
    [reflexivity|].
  simpl in Hnin. rewrite IH by tauto. apply get_assign_other. intros ->. tauto.
Qed.

Lemma of_pairs_get_inv (k : Z) (v : string) (pairs : list (Z * string)) : forall d,
  get Z.eqb k (fold_left (fun d kv => assign Z.eqb (fst kv) (snd kv) d) pairs d) = Some v ->
  get Z.eqb k d = Some v \/ In (k, v) pairs.
Proof.
  induction pairs as [|[k' v'] pairs IH]; intros d H; cbn [fold_left fst snd] in H;
    [now left|].
  destruct (IH _ H) as [H' | H']; [|right; now right].
  destruct (Z.eq_dec k k') as [<- | Hne].
  - rewrite get_assign_same in H'. injection H' as <-. right. now left.
  - rewrite get_assign_other in H' by assumption. now left.
Qed.

Lemma id_to_word_last_entry (size : positive) (l1 l2 : list (string * Z))
  (word : string) (id : Z) :
  ~ In id (map snd l2) ->
  get Z.eqb id (id_to_word (init (l1 ++ (word, id) :: l2) size)) = Some word.
Proof.
  intros Hnin. cbn [id_to_word init]. unfold of_pairs.
  rewrite map_app, fold_left_app. cbn [map fold_left fst snd].
  rewrite of_pairs_get_other.
  - apply get_assign_same.
  - rewrite map_map. cbn [fst]. exact Hnin.
Qed.

Lemma id_to_word_entry (size : positive) (lex : list (string * Z))
  (word : string) (id : Z) :
  get Z.eqb id (id_to_word (init lex size)) = Some word -> In (word, id) lex.
Proof.
  cbn [id_to_word init]. unfold of_pairs. intros H.
  apply of_pairs_get_inv in H as [H | H]; [discriminate|].
  apply in_map_iff in H as ([w i] & [= <- <-] & Hin). exact Hin.
Qed.

(** X19. [id_to_word] gives for an id the word of the last lexicon entry
    that carries it: when two words share an id the later one wins and the
    earlier word cannot be reached from the id. *)
Theorem X19_id_to_word_takes_the_last_entry :
  forall (size : positive) (l1 l2 : list (string * Z)) (word : string) (id : Z),
    ~ In id (map snd l2) ->
    get Z.eqb id (id_to_word (init (l1 ++ (word, id) :: l2) size)) = Some word.
Proof.
  intros size l1 l2 word id Hnin. now apply id_to_word_last_entry.
Qed.

Lemma X19_witness_shared_id :
  get Z.eqb 1%Z (id_to_word (init ([("star", 1%Z)] ++ ("sun", 1%Z) :: [("moon", 2%Z)]) 100))
  = Some "sun".
Proof.
  apply (X19_id_to_word_takes_the_last_entry 100 [("star", 1%Z)] [("moon", 2%Z)] "sun" 1%Z).
  simpl. intros [H | []]. discriminate H.
Defined.

End BackwardExtras.

(* ================================================================== *)
(** * A corrupted forward-index file *)
(* ================================================================== *)

Module FailureIsolation.
Import Py Backward PyFacts BackwardProofs BackwardExtras.




End FailureIsolation.

(* ================================================================== *)
(** * From the lexicon to the forward index *)
(* ================================================================== *)

Module PipelineExtras.
Import Py PyFacts.

Lemma skipped_count (lex : list (string * Z)) (words : list string) :
  snd (Forward.index_words lex words)
  = Z.of_nat (List.length
                (filter (fun w => negb (contains String.eqb (lower w) lex)) words)).
Proof.
  induction words as [|w words IH] using rev_ind; [reflexivity|].
  rewrite ForwardExtras.index_words_snoc, filter_app, length_app.
  destruct (Forward.index_words lex words) as [fi sk]. cbn [snd] in IH.
  rewrite Nat2Z.inj_add, <- IH.
  unfold Forward.index_step, contains. cbn [filter].
  destruct (get String.eqb (lower w) lex); cbn [snd negb List.length]; lia.
Qed.

(** X20. When the forward index is built with the lexicon that [build]
    wrote from the same corpus and dictionary, the tokens of a document that
    do not resolve are exactly those that [_is_valid_word] turns down, and
    [words_skipped] ends at their number: no token that the lexicon builder
    accepted is skipped. *)
Theorem X20_unresolved_tokens_are_the_rejected_words :
  forall (english_words : list string) (size : positive) (st : Lexicon.stats)
         (dir : list txt_file) (lex : Lexicon.lexicon)
         (f : txt_file) (content : string),
    In ("lexicon.json", Lexicon.LexiconJson lex)
       (snd (Lexicon.build english_words size st dir)) ->
    In f (_get_txt_files dir) ->
    text f = Some content ->
    (forall token,
        In token (findall_words content) ->
        (get String.eqb (lower token) lex = None
         <-> Lexicon._is_valid_word english_words (lower token) = false))
    /\ snd (Forward.index_words lex (findall_words content))
       = Z.of_nat (List.length
                     (filter (fun t => negb (Lexicon._is_valid_word english_words
                                               (lower t)))
                        (findall_words content))).
Proof.
  intros english size st dir lex f content Hlex Hf Htext.
  assert (H : forall token,
             In token (findall_words content) ->
             contains String.eqb (lower token) lex
             = Lexicon._is_valid_word english (lower token)).
  { intros token Htok.
    pose proof (LexiconExtras.written_lexicon_words english size st dir lex Hlex
                  (lower token)) as Hacc.
    assert (Hvalid : Lexicon.accepted english (_get_txt_files dir) (lower token)
                     <-> Lexicon._is_valid_word english (lower token) = true).
    { split.
      - intros (f' & c' & t' & _ & _ & _ & _ & Hv). exact Hv.
      - intros Hv. exists f, content, token. auto. }
    unfold contains.
    destruct (get String.eqb (lower token) lex) as [id|] eqn:Hget.
    - assert (Hin : In (lower token) (map fst lex)).
      { apply (get_Some_In String.eqb String.eqb_eq) in Hget.
        apply in_map_iff. exists (lower token, id). auto. }
      apply Hacc in Hin. apply Hvalid in Hin. now rewrite Hin.
    - apply (get_None String.eqb String.eqb_eq) in Hget.
      destruct (Lexicon._is_valid_word english (lower token)) eqn:Hv; [|reflexivity].
      exfalso. apply Hget. apply Hacc. now apply Hvalid. }
  split.
  - intros token Htok. specialize (H token Htok). unfold contains in H.
    destruct (get String.eqb (lower token) lex); rewrite <- H;
      split; (reflexivity || discriminate).
  - rewrite skipped_count. do 2 f_equal. apply filter_ext_in.
    intros t Ht. now rewrite (H t Ht).
Qed.

Lemma X20_witness_rejected_token :
  snd (Forward.index_words [("nebula", 1%Z); ("star", 2%Z)]
         (findall_words "star nebula xyzzyqq"))
  = 1%Z.
Proof.
  destruct (X20_unresolved_tokens_are_the_rejected_words ["star"] 200
              {| Lexicon.total_files := 0; Lexicon.unique_words := 0 |}
              [{| stem := "a"; text := Some "star nebula xyzzyqq" |}]
              [("nebula", 1%Z); ("star", 2%Z)]
              {| stem := "a"; text := Some "star nebula xyzzyqq" |}
              "star nebula xyzzyqq") as [_ H].
  - vm_compute. left. reflexivity.
  - left. reflexivity.
  - reflexivity.
  - rewrite H. reflexivity.
Defined.

(** ** From the lexicon to the backward index *)

Lemma written_lexicon_ids (english_words : list string) (size : positive)
  (st : Lexicon.stats) (dir : list txt_file) (lex : Lexicon.lexicon) :
  In ("lexicon.json", Lexicon.LexiconJson lex)
     (snd (Lexicon.build english_words size st dir)) ->
  map snd lex = map Z.of_nat (seq 1 (List.length lex)).
Proof.
  intros H. apply LexiconExtras.written_lexicon in H as [_ ->].
  rewrite (LexiconProofs.make_lexicon_eq _
             (LexiconProofs.collect_NoDup english_words size (_get_txt_files dir))).
  rewrite length_map. change 1%Z with (Z.of_nat 1).
  rewrite LexiconProofs.enumerate_ids. do 2 f_equal.
  generalize (Z.of_nat 1).
  induction (sorted _) as [|x l IH]; intros z; simpl; auto.
Qed.

Lemma NoDup_map_of_nat (l : list nat) : NoDup l -> NoDup (map Z.of_nat l).
Proof.
  induction 1 as [|x l Hnin Hnd IH]; simpl; constructor; [|assumption].
  intros H. apply in_map_iff in H as (y & Hy & Hin).
  apply Nat2Z.inj in Hy. now subst y.
Qed.

(** X21. For a lexicon that [build] wrote, the reverse mapping that the
    backward builder makes of it is its exact inverse: an id leads to a word
    exactly when the lexicon gives that word the id. *)
Theorem X21_id_to_word_inverts_a_built_lexicon :
  forall (english_words : list string) (size size' : positive) (st : Lexicon.stats)
         (dir : list txt_file) (lex : Lexicon.lexicon) (word : string) (id : Z),
    In ("lexicon.json", Lexicon.LexiconJson lex)
       (snd (Lexicon.build english_words size st dir)) ->
    (get Z.eqb id (Backward.id_to_word (Backward.init lex size')) = Some word
     <-> In (word, id) lex).
Proof.
  intros english size size' st dir lex word id Hlex. split.
  - apply BackwardExtras.id_to_word_entry.
  - intros Hin.
    assert (Hnd : NoDup (map snd lex)).
    { rewrite (written_lexicon_ids english size st dir lex Hlex).
      apply NoDup_map_of_nat, seq_NoDup. }
    apply in_split in Hin as (l1 & l2 & ->).
    apply BackwardExtras.id_to_word_last_entry.
    rewrite map_app in Hnd. cbn [map snd] in Hnd.
    apply NoDup_remove_2 in Hnd. intros H. apply Hnd. apply in_or_app. now right.
Qed.

Lemma X21_witness_nebula :
  get Z.eqb 2%Z
    (Backward.id_to_word
       (Backward.init [("comet", 1%Z); ("nebula", 2%Z); ("star", 3%Z)] 100))
  = Some "nebula"
  <-> In ("nebula", 2%Z) [("comet", 1%Z); ("nebula", 2%Z); ("star", 3%Z)].
Proof.
  apply (X21_id_to_word_inverts_a_built_lexicon ["star"] 200 100
           {| Lexicon.total_files := 0; Lexicon.unique_words := 0 |}
           [{| stem := "a"; text := Some "star nebula" |};
            {| stem := "b"; text := Some "Comet star" |}]).
  vm_compute. left. reflexivity.
Defined.

End PipelineExtras.
